(** * Power-control orchestration of the region controller

    Shallow embedding of [maasserver/clusterrpc/power.py] (the power
    dispatcher) and of the power-type catalog of
    [maasserver/clusterrpc/power_parameters.py], together with the
    properties stated about them.

    Time is counted in whole units ([nat]); a Twisted [Deferred] is
    represented by the moment it fires and the result it fires with. *)

From stdpp Require Import base option list gmap strings.

#[local] Set Warnings "-clear-no-such-hyp".
Open Scope string_scope.

(** ** Deferreds *)

Module Twisted.

(** A Deferred either fires after some delay, with a value or with a
    failure, or is never fired at all. *)
Inductive Deferred (E A : Type) : Type :=
| Fired (delay : nat) (result : A + E)
| Unfired.
Arguments Fired {E A} delay result.
Arguments Unfired {E A}.

(** Postpones a Deferred by [t] units: the Deferred a callback hands
    back only starts once the callback itself has run. *)
Definition delayed {E A} (t : nat) (d : Deferred E A) : Deferred E A :=
  match d with
  | Fired t' r => Fired (t + t')%nat r
  | Unfired => Unfired
  end.

(** Re-labels the failure a Deferred may fire with. *)
Definition map_failure {E E' A} (f : E → E') (d : Deferred E A)
  : Deferred E' A :=
  match d with
  | Fired t (inl a) => Fired t (inl a)
  | Fired t (inr e) => Fired t (inr (f e))
  | Unfired => Unfired
  end.

(** What a caller that blocks on a Deferred observes. *)
Inductive Waited (E A : Type) : Type :=
| Returned (value : A)
| Raised (failure : E)
| TimedOut.
Arguments Returned {E A} value.
Arguments Raised {E A} failure.
Arguments TimedOut {E A}.

(** Waiting on a Deferred for at most [timeout] units. The Deferred wins
    the race when it fires no later than the deadline. *)
Definition wait {E A} (timeout : nat) (d : Deferred E A) : Waited E A :=
  match d with
  | Fired t (inl a) => if Nat.leb t timeout then Returned a else TimedOut
  | Fired t (inr e) => if Nat.leb t timeout then Raised e else TimedOut
  | Unfired => TimedOut
  end.

End Twisted.

(** ** The power dispatcher: [maasserver/clusterrpc/power.py] *)

Module Power.
Import Twisted.

(** The [amp.Command] handed to [power_node]. [PowerOn] and [PowerOff]
    are the two the module imports; the parameter itself is open. *)
Inductive Command : Type :=
| PowerOn
| PowerOff
| OtherCommand (name : string).

(** The [power_info] argument: only these two attributes are read. *)
Record PowerInfo : Type := {
  power_type : string;
  power_parameters : gmap string string;
}.

(** Keyword arguments of the RPC call. *)
Record Kwargs : Type := {
  kw_system_id : string;
  kw_hostname : string;
  kw_power_type : string;
  kw_context : gmap string string;
}.

(** A connection handle, as handed out by [getClientFor]. *)
Record Client : Type := { client_ident : string }.

(** The (empty) answer of a power command. *)
Definition Response : Type := gmap string string.

(** Faults a cluster controller reports for a power command. *)
Inductive RemoteFault : Type :=
| UnknownPowerType
| NotImplementedError
| DriverFault (message : string).

(** Failures the Deferred of [power_node] can fire with. *)
Inductive Failure : Type :=
| NoConnectionsAvailable
| Remote (fault : RemoteFault).

(** The collaborators outside this module: the connection directory
    ([maasserver.rpc.getClientFor]) and the cluster controllers behind
    the connections. *)
Record World : Type := {
  directory : string → Deferred Failure Client;
  cluster : Client → Command → Kwargs → Deferred RemoteFault Response;
}.

(** What a run does that is visible outside, in order. *)
Inductive Event : Type :=
| LogDebug (message : string)
| ResolveClient (cluster_uuid : string)
| RpcCall (client : Client) (command : Command) (kwargs : Kwargs).

(** Computations that append to the trace of events. *)
Definition Run (A : Type) : Type := list Event → A * list Event.

#[export] Instance Run_ret : MRet Run := λ A a tr, (a, tr).
#[export] Instance Run_bind : MBind Run :=
  λ A B f m tr, let '(a, tr') := m tr in f a tr'.

Definition emit (e : Event) : Run unit := λ tr, (tt, (tr ++ [e])%list).

Definition run {A} (m : Run A) : A * list Event := m [].

(** [d.addCallback(f, **kwargs)]: [f] runs when, and only when, [d]
    fires with a value; a failure passes through untouched. *)
Definition addCallback {A B} (d : Deferred Failure A)
    (f : A → Run (Deferred Failure B)) : Run (Deferred Failure B) :=
  match d with
  | Fired t (inl a) => d' ← f a; mret (delayed t d')
  | Fired t (inr e) => mret (Fired t (inr e))
  | Unfired => mret Unfired
  end.

Section Dispatch.
Variable w : World.

(** [maaslog.debug(fmt, hostname)] with [fmt = "%s: ..."]. *)
Definition maaslog_debug (hostname text : string) : Run unit :=
  emit (LogDebug (hostname ++ ": " ++ text)).

Definition getClientFor (cluster_uuid : string)
  : Run (Deferred Failure Client) :=
  _ ← emit (ResolveClient cluster_uuid);
  mret (directory w cluster_uuid).

(** [client(command, **kwargs)]. *)
Definition call_client (client : Client) (command : Command)
    (kwargs : Kwargs) : Run (Deferred Failure Response) :=
  _ ← emit (RpcCall client command kwargs);
  mret (map_failure Remote (cluster w client command kwargs)).

(** The inner function of [power_node]. *)
Definition call_power_command (command : Command) (client : Client)
    (kwargs : Kwargs) : Run (Deferred Failure Response) :=
  call_client client command kwargs.

(** The body of [power_node]: the Deferred it returns. *)
Definition power_node_deferred (command : Command)
    (system_id hostname cluster_uuid : string) (power_info : PowerInfo)
  : Run (Deferred Failure Response) :=
  _ ← maaslog_debug hostname "Asking cluster to power on node.";
  c ← getClientFor cluster_uuid;
  addCallback c (λ client,
    call_power_command command client
      {| kw_system_id := system_id;
         kw_hostname := hostname;
         kw_power_type := power_type power_info;
         kw_context := power_parameters power_info |}).

(** Modelled from the spec: the decorator [asynchronous] of
    [provisioningserver.utils.twisted] is not among the sources. The
    decorated function runs, and the caller's wait for its Deferred is
    raced against [timeout]; when the deadline elapses first the caller
    gets a timeout, and the call in flight is not aborted. *)
Definition asynchronous {A} (timeout : nat)
    (f : Run (Deferred Failure A)) : Run (Waited Failure A) :=
  d ← f; mret (wait timeout d).

(** [@asynchronous(timeout=15) def power_node(...)]. *)
Definition power_node (command : Command)
    (system_id hostname cluster_uuid : string) (power_info : PowerInfo)
  : Run (Waited Failure Response) :=
  asynchronous 15
    (power_node_deferred command system_id hostname cluster_uuid
       power_info).

(** [power_off_node = partial(power_node, PowerOff)]. *)
Definition power_off_node := power_node PowerOff.

(** [power_on_node = partial(power_node, PowerOn)]. *)
Definition power_on_node := power_node PowerOn.

End Dispatch.

(** *** The outcome vocabulary of the design document

    [power_node] hands the remote answer or failure on as it is; the
    design document names what the caller then holds. This reading
    follows its wording, not the code. *)

Inductive Status : Type :=
| Success
| StatusUnknownPowerType
| Unsupported
| ConnectionUnavailable
| Timeout
| RemoteFailure.

Record Outcome : Type := { status : Status; detail : string }.

Definition outcome_of (r : Waited Failure Response) : Outcome :=
  match r with
  | Returned _ => {| status := Success; detail := "" |}
  | Raised (Remote UnknownPowerType) =>
      {| status := StatusUnknownPowerType; detail := "" |}
  | Raised (Remote NotImplementedError) =>
      {| status := Unsupported; detail := "" |}
  | Raised (Remote (DriverFault msg)) =>
      {| status := RemoteFailure; detail := msg |}
  | Raised NoConnectionsAvailable =>
      {| status := ConnectionUnavailable; detail := "" |}
  | TimedOut => {| status := Timeout; detail := "" |}
  end.

(** The answer of the cluster as the reply a Deferred fires with. *)
Definition reply_result (reply : Response + RemoteFault)
  : Response + Failure :=
  match reply with
  | inl r => inl r
  | inr f => inr (Remote f)
  end.

(** What the caller of a blocking operation holds for a result. *)
Definition waited_of {A} (r : A + Failure) : Waited Failure A :=
  match r with
  | inl a => Returned a
  | inr e => Raised e
  end.

(** The RPC calls among the events of a run. *)
Definition is_rpc_call (e : Event) : bool :=
  match e with
  | RpcCall _ _ _ => true
  | _ => false
  end.

Definition rpc_calls (tr : list Event) : list Event :=
  List.filter is_rpc_call tr.

(** A dispatch operation, once all its arguments are given, is a run
    in a world; it enforces the deadline [n] when in every world the
    caller holds what waiting [n] units on the Deferred of the body
    gives. *)
Definition enforces_deadline
    (op : World → Run (Waited Failure Response))
    (body : World → Run (Deferred Failure Response)) (n : nat) : Prop :=
  ∀ w, (run (op w)).1 = wait n (run (body w)).1.

(** The keyword arguments the design document names for the RPC call:
    [system_id=machine_id, hostname=hostname, power_type=power_type,
    context=power_parameters]. *)
Definition rpc_kwargs (machine_id hostname : string) (power_info : PowerInfo)
  : Kwargs :=
  {| kw_system_id := machine_id;
     kw_hostname := hostname;
     kw_power_type := power_type power_info;
     kw_context := power_parameters power_info |}.

(** The line in the debug log, for a node of the given host name. *)
Definition asking_message (hostname : string) : string :=
  hostname ++ ": Asking cluster to power on node.".

End Power.

(** ** The power-type catalog: [maasserver/clusterrpc/power_parameters.py]

    The module itself is not among the sources; its tests
    ([clusterrpc/tests/test_power_parameters.py]) are. *)

Module PowerParameters.

(** JSON documents, as the cluster controllers report them. An object
    keeps its members in order; a key is looked up from the front. *)
#[local] Unset Elimination Schemes.
Inductive json : Type :=
| JNull
| JBool (b : bool)
| JNum (n : Z)
| JStr (s : string)
| JArr (items : list json)
| JObj (members : list (string * json)).
#[local] Set Elimination Schemes.

Fixpoint assoc (key : string) (members : list (string * json))
  : option json :=
  match members with
  | [] => None
  | (k, v) :: rest => if String.eqb k key then Some v else assoc key rest
  end.

(** [doc[key]], when [doc] is an object holding [key]. *)
Definition member (key : string) (doc : json) : option json :=
  match doc with
  | JObj members => assoc key members
  | _ => None
  end.

Definition is_string (j : json) : bool :=
  match j with JStr _ => true | _ => false end.

Definition is_boolean (j : json) : bool :=
  match j with JBool _ => true | _ => false end.

Definition is_object (j : json) : bool :=
  match j with JObj _ => true | _ => false end.

(** A key that must be there, with a value of the given type. *)
Definition required_key (key : string) (ty : json → bool) (doc : json)
  : bool :=
  match member key doc with
  | Some v => ty v
  | None => false
  end.

(** A key that may be missing, with a value of the given type if not. *)
Definition optional_key (key : string) (ty : json → bool) (doc : json)
  : bool :=
  match member key doc with
  | Some v => ty v
  | None => true
  end.

Definition array_of (ty : json → bool) (j : json) : bool :=
  match j with
  | JArr items => forallb ty items
  | _ => false
  end.

(** Modelled from the spec: the schemas [POWER_TYPE_PARAMETER_FIELD_SCHEMA]
    and [JSON_POWER_TYPE_SCHEMA] of [provisioningserver.power_schema] are
    not among the sources. One choice is a pair [[value, label]] of
    strings. *)
Definition valid_choice (j : json) : bool :=
  match j with
  | JArr [JStr _; JStr _] => true
  | _ => false
  end.

Definition string_of (j : option json) : string :=
  match j with Some (JStr s) => s | _ => "" end.

Definition bool_of (j : option json) : bool :=
  match j with Some (JBool b) => b | _ => false end.

Definition choice_of (j : json) : string * string :=
  match j with
  | JArr [JStr v; JStr l] => (v, l)
  | _ => ("", "")
  end.

Definition choices_of (j : option json) : list (string * string) :=
  match j with
  | Some (JArr items) => map choice_of items
  | _ => []
  end.

(** Modelled from the spec: the kinds of field the data model names. It
    leaves the list open; [other_kinds], below, are the kinds it does not
    name. *)
Definition named_kinds : list string :=
  ["string"; "choice"; "mac_address"; "password"].

(** Modelled from the spec: [field_type] must be a string and a
    recognised kind. *)
Definition recognised_kind (other_kinds : list string) (j : json) : bool :=
  match j with
  | JStr s => existsb (String.eqb s) (named_kinds ++ other_kinds)
  | _ => false
  end.

(** Modelled from the spec: in a field of kind [choice], a default that
    is not empty must be the value of one of the choices. A default or a
    list of choices that is left out counts as empty. *)
Definition choice_default_ok (doc : json) : bool :=
  if String.eqb (string_of (member "field_type" doc)) "choice" then
    let default := string_of (member "default" doc) in
    String.eqb default ""
    || existsb (String.eqb default)
         (map fst (choices_of (member "choices" doc)))
  else true.

(** Modelled from the spec: FieldDoc, the field schema. [name], [label],
    [field_type] and [required] must be there; [choices] and [default]
    have defaults and may be left out. Beyond the keys and the types of
    their values, the kind must be a recognised one and the default of a
    choice must be among its choices. *)
Definition valid_field (other_kinds : list string) (doc : json) : bool :=
  is_object doc
  && required_key "name" is_string doc
  && required_key "label" is_string doc
  && required_key "field_type" (recognised_kind other_kinds) doc
  && required_key "required" is_boolean doc
  && optional_key "choices" (array_of valid_choice) doc
  && optional_key "default" is_string doc
  && choice_default_ok doc.

(** Modelled from the spec: the schema of a field list. *)
Definition valid_field_set (other_kinds : list string) (fields : json)
  : bool :=
  array_of (valid_field other_kinds) fields.

(** Modelled from the spec: TypeDoc. *)
Definition valid_power_type (other_kinds : list string) (doc : json)
  : bool :=
  is_object doc
  && required_key "name" is_string doc
  && required_key "description" is_string doc
  && required_key "fields" (valid_field_set other_kinds) doc.

(** Modelled from the spec: CatalogDoc, the catalog schema. *)
Definition valid_catalog (other_kinds : list string) (docs : json) : bool :=
  array_of (valid_power_type other_kinds) docs.

(** The one error of this module ([jsonschema.ValidationError]). *)
Inductive Error : Type := SchemaValidationError.

(** The kind of a field; the set is open. *)
Inductive FieldKind : Type :=
| KString
| KChoice
| KMacAddress
| KPassword
| KOther (field_type : string).

Definition kind_of (field_type : string) : FieldKind :=
  if String.eqb field_type "string" then KString
  else if String.eqb field_type "choice" then KChoice
  else if String.eqb field_type "mac_address" then KMacAddress
  else if String.eqb field_type "password" then KPassword
  else KOther field_type.

Record FieldDescriptor : Type := {
  fd_name : string;
  fd_label : string;
  fd_kind : FieldKind;
  fd_choices : list (string * string);
  fd_default : string;
  fd_required : bool;
}.

Record PowerTypeEntry : Type := {
  pt_name : string;
  pt_description : string;
  pt_fields : list FieldDescriptor;
}.

(** Modelled from the spec: the conversion of one field document into a
    Field Descriptor, which checks the document against the field schema
    before it answers. *)
Definition make_form_field (other_kinds : list string) (json_field : json)
  : FieldDescriptor + Error :=
  if valid_field other_kinds json_field then
    inl {| fd_name := string_of (member "name" json_field);
           fd_label := string_of (member "label" json_field);
           fd_kind := kind_of (string_of (member "field_type" json_field));
           fd_choices := choices_of (member "choices" json_field);
           fd_default := string_of (member "default" json_field);
           fd_required := bool_of (member "required" json_field) |}
  else inr SchemaValidationError.

Fixpoint make_form_fields (other_kinds : list string)
    (json_fields : list json) : list FieldDescriptor + Error :=
  match json_fields with
  | [] => inl []
  | f :: rest =>
      match make_form_field other_kinds f with
      | inr e => inr e
      | inl fd =>
          match make_form_fields other_kinds rest with
          | inr e => inr e
          | inl fds => inl (fd :: fds)
          end
      end
  end.

Definition name_of (doc : json) : string := string_of (member "name" doc).

Definition fields_of (doc : json) : list json :=
  match member "fields" doc with
  | Some (JArr fs) => fs
  | _ => []
  end.

Definition make_entry (other_kinds : list string) (power_type : json)
  : PowerTypeEntry + Error :=
  match make_form_fields other_kinds (fields_of power_type) with
  | inr e => inr e
  | inl fds =>
      inl {| pt_name := name_of power_type;
             pt_description := string_of (member "description" power_type);
             pt_fields := fds |}
  end.

(** The entry for the case where no power type is entered yet. *)
Definition empty_entry : PowerTypeEntry :=
  {| pt_name := ""; pt_description := ""; pt_fields := [] |}.

(** The loop over the power types: a later document of the same name
    replaces an earlier one. *)
Fixpoint add_entries (other_kinds : list string) (power_types : list json)
    (power_parameters : gmap string PowerTypeEntry)
  : gmap string PowerTypeEntry + Error :=
  match power_types with
  | [] => inl power_parameters
  | power_type :: rest =>
      match make_entry other_kinds power_type with
      | inr e => inr e
      | inl entry =>
          add_entries other_kinds rest
            (<[pt_name entry := entry]> power_parameters)
      end
  end.

(** Modelled from the spec: [get_power_type_parameters_from_json]
    (section 4.2, [build_catalog_from_documents]). The whole input is
    checked against the catalog schema first; then every entry is
    converted, on top of the entry of the empty name. *)
Definition get_power_type_parameters_from_json (other_kinds : list string)
    (json_power_type_parameters : json)
  : gmap string PowerTypeEntry + Error :=
  if valid_catalog other_kinds json_power_type_parameters then
    match json_power_type_parameters with
    | JArr power_types =>
        add_entries other_kinds power_types {[ "" := empty_entry ]}
    | _ => inr SchemaValidationError
    end
  else inr SchemaValidationError.

(** [name == power_type['name']]. *)
Definition has_name (name : string) (power_type : json) : bool :=
  match member "name" power_type with
  | Some (JStr n) => String.eqb name n
  | _ => false
  end.

Definition new_power_type (name description : string) (fields : json)
  : json :=
  JObj [("name", JStr name); ("description", JStr description);
        ("fields", fields)].

(** Modelled from the spec: [add_power_type_parameters] (section 4.3).
    [parameters_set] is a list the caller shares with the function; the
    answer holds what the call returns and the list as the call leaves
    it. A name that is there already ends the call at once. Otherwise
    the fields are checked, the new entry is put at the end of a copy,
    the whole copy is checked against the catalog schema, and only then
    is it committed. *)
Definition add_power_type_parameters (other_kinds : list string)
    (name description : string) (fields : json) (parameters_set : list json)
  : (unit + Error) * list json :=
  if existsb (has_name name) parameters_set then (inl tt, parameters_set)
  else if negb (valid_field_set other_kinds fields) then
    (inr SchemaValidationError, parameters_set)
  else
    let candidate :=
      (parameters_set ++ [new_power_type name description fields])%list in
    if valid_catalog other_kinds (JArr candidate) then (inl tt, candidate)
    else (inr SchemaValidationError, parameters_set).

End PowerParameters.

(** ** Scenarios

    Concrete worlds and documents, for running the definitions. *)

Module Scenario.
Import Twisted Power PowerParameters.

Definition cluster_a : Client := {| client_ident := "cluster-a" |}.

Definition ipmi_info : PowerInfo :=
  {| power_type := "ipmi";
     power_parameters := {[ "power_address" := "10.0.0.5" ]} |}.

(** The directory answers after [t1] with a client; the cluster answers
    every call after [t2] more with [reply]. *)
Definition replying (t1 t2 : nat) (reply : Response + RemoteFault) : World :=
  {| directory := λ _, Fired t1 (inl cluster_a);
     cluster := λ _ _ _, Fired t2 reply |}.

(** The directory finds no connection, after [t]. *)
Definition unreachable (t : nat) : World :=
  {| directory := λ _, Fired t (inr NoConnectionsAvailable);
     cluster := λ _ _ _, Unfired |}.

(** The field document [make_json_field(name, label)] answers with, as
    [test_provides_sane_default_values] has it. *)
Definition make_json_field (name label : string) : json :=
  JObj [("name", JStr name); ("label", JStr label);
        ("required", JBool false); ("field_type", JStr "string");
        ("choices", JArr []); ("default", JStr "")].

(** The registry of [test_adding_existing_types_is_a_no_op]. *)
Definition blah_registry : list json :=
  [JObj [("name", JStr "blah"); ("description", JStr "baz");
         ("fields", JObj [])]].

(** The documents of [test_includes_empty_power_type]. *)
Definition something_parameters : list json :=
  [JObj [("name", JStr "something"); ("description", JStr "Meaningless");
         ("fields",
          JArr [JObj [("name", JStr "some_field");
                      ("label", JStr "Some Field");
                      ("field_type", JStr "string");
                      ("required", JBool false)]])]].

(** A power type one of whose fields has no label. *)
Definition broken_parameters : list json :=
  [JObj [("name", JStr "ipmi"); ("description", JStr "IPMI");
         ("fields", JArr [make_json_field "power_address" "Address"])];
   JObj [("name", JStr "virsh"); ("description", JStr "virsh");
         ("fields",
          JArr [make_json_field "power_id" "Power ID";
                JObj [("name", JStr "power_pass");
                      ("field_type", JStr "password");
                      ("required", JBool false)]])]].

End Scenario.

(** ** Certificate files: [provisioningserver/certificates.py] *)

Module Certificates.

(** The host as [get_maas_cert_tuple] sees it. [pathlib.Path], the snap
    helpers of [provisioningserver.utils.snap] and
    [provisioningserver.path.get_tentative_data_path] are not among the
    sources; they are taken as they come. *)
Record Host (Path : Type) : Type := {
  (** [Path(s)], [p / name], [str(p)] and [p.exists()] *)
  path_of : string → Path;
  joinpath : Path → string → Path;
  str : Path → string;
  exists_ : Path → bool;
  (** [running_in_snap()] and [SnapPaths.from_environ().common] *)
  running_in_snap : bool;
  snap_common : Path;
  get_tentative_data_path : string → string;
}.
Arguments path_of {Path} _ _.
Arguments joinpath {Path} _ _ _.
Arguments str {Path} _ _.
Arguments exists_ {Path} _ _.
Arguments running_in_snap {Path} _.
Arguments snap_common {Path} _.
Arguments get_tentative_data_path {Path} _ _.

(** The two branches that choose [private_key] and [certificate]. *)
Definition maas_cert_paths {Path} (h : Host Path) : Path * Path :=
  if running_in_snap h then
    let cert_dir := joinpath h (snap_common h) "certificates" in
    let private_key := joinpath h cert_dir "maas.key" in
    let certificate := joinpath h cert_dir "maas.crt" in
    (private_key, certificate)
  else
    let private_key :=
      path_of h
        (get_tentative_data_path h "/etc/maas/certificates/maas.key") in
    let certificate :=
      path_of h
        (get_tentative_data_path h "/etc/maas/certificates/maas.crt") in
    (private_key, certificate).

(** [get_maas_cert_tuple()]: [None], or the pair in the format of
    python-requests. *)
Definition get_maas_cert_tuple {Path} (h : Host Path)
  : option (string * string) :=
  let '(private_key, certificate) := maas_cert_paths h in
  if negb (exists_ h private_key) || negb (exists_ h certificate) then None
  else Some (str h certificate, str h private_key).

End Certificates.

(** ** The runserver command:
    [maasserver/management/commands/runserver.py] *)

Module Runserver.

(** Option values, as far as their truth matters. *)
Inductive pyvalue : Type :=
| PyNone
| PyBool (b : bool)
| PyInt (n : Z)
| PyStr (s : string).

(** [if v:]. *)
Definition truthy (v : pyvalue) : bool :=
  match v with
  | PyNone => false
  | PyBool b => b
  | PyInt n => negb (Z.eqb n 0)
  | PyStr s => negb (String.eqb s "")
  end.

(** What [Command.run] does, in order. *)
Inductive Event : Type :=
| PatchWSGIServer
| StartUp
| BaseRun (args : list pyvalue) (options : gmap string pyvalue).

(** How a call ends: with what the base command returns, or with what
    [start_up] raises. *)
Inductive Ended (R Exc : Type) : Type :=
| Returns (value : R)
| Raises (exc : Exc).
Arguments Returns {R Exc} value.
Arguments Raises {R Exc} exc.

(** [options.get(key, default)]. *)
Definition options_get (options : gmap string pyvalue) (key : string)
    (default : pyvalue) : pyvalue :=
  match options !! key with
  | Some v => v
  | None => default
  end.

(** [Command.run], with its [args] and [options]. [start_up] may raise.
    [patched] says whether [basehttp.WSGIServer] is the threaded class
    already when the call starts: the patch is made on the module, so it
    stays for the rest of the process; the answer holds how the call ends
    and whether the class is patched after it. What the base command
    returns may depend on the class it finds. *)
Definition run {R Exc} (start_up : option Exc)
    (base_run : bool → list pyvalue → gmap string pyvalue → R)
    (patched : bool) (args : list pyvalue) (options : gmap string pyvalue)
  : (Ended R Exc * bool) * list Event :=
  let threading := options_get options "use_threading" (PyBool false) in
  let tr := if truthy threading then [PatchWSGIServer] else [] in
  let patched := truthy threading || patched in
  let tr := (tr ++ [StartUp])%list in
  match start_up with
  | Some exc => ((Raises exc, patched), tr)
  | None =>
      ((Returns (base_run patched args options), patched),
       (tr ++ [BaseRun args options])%list)
  end.

End Runserver.

(** ** Registration with the admin site: [maasserver/admin.py] *)

Module Admin.

Inductive Model : Type :=
| Consumer
| AppModel (name : string).

#[export] Instance Model_eq_dec : EqDecision Model.
Proof. solve_decision. Defined.

Inductive AlreadyRegistered : Type := already_registered (model : Model).

(** [admin.site.register(model)]: a model that is registered already is
    refused. *)
Definition register (model : Model) (site : list Model)
  : (unit + AlreadyRegistered) * list Model :=
  if decide (model ∈ site) then (inr (already_registered model), site)
  else (inl tt, (site ++ [model])%list).

(** [for model in models: admin.site.register(model)]. *)
Fixpoint register_each (models : list Model) (site : list Model)
  : (unit + AlreadyRegistered) * list Model :=
  match models with
  | [] => (inl tt, site)
  | model :: rest =>
      match register model site with
      | (inl _, site') => register_each rest site'
      | (inr e, site') => (inr e, site')
      end
  end.

(** The body of the module: [get_models] is
    [get_models(get_app('maasserver'))]. *)
Definition admin_module_body (get_models : list Model) (site : list Model)
  : (unit + AlreadyRegistered) * list Model :=
  match register Consumer site with
  | (inl _, site') => register_each get_models site'
  | (inr e, site') => (inr e, site')
  end.

(** The process that imports the module: whether [maasserver.admin] is
    among its loaded modules, and what is registered with the site. *)
Record Process : Type := {
  admin_imported : bool;
  admin_site : list Model;
}.

(** [import maasserver.admin]. A module that is loaded already is not run
    again; otherwise its body runs, and the module counts as loaded only
    when the body got to its end. *)
Definition import_admin (get_models : list Model) (p : Process)
  : (unit + AlreadyRegistered) * Process :=
  if admin_imported p then (inl tt, p)
  else
    match admin_module_body get_models (admin_site p) with
    | (inl _, site') =>
        (inl tt, {| admin_imported := true; admin_site := site' |})
    | (inr e, site') =>
        (inr e, {| admin_imported := false; admin_site := site' |})
    end.

End Admin.

(** ** Helpers of the boot-resource tests:
    [tests/maasserver/test_bootresources.py] *)

Module BootResourceTests.

Record LargeFile : Type := {
  lf_sha256 : string;
  lf_size : nat;
  lf_total_size : nat;
  lf_content : list Byte.byte;
}.

(** [TestExportImagesFromDB.make_LargeFile]. [factory.make_bytes] and
    SHA-256 are taken as they come. *)
Definition make_LargeFile (make_bytes : nat → list Byte.byte)
    (sha256_hexdigest : list Byte.byte → string)
    (content : option (list Byte.byte)) (size : option nat) : LargeFile :=
  let content :=
    match content with
    | None =>
        let content_size := match size with None => 512%nat | Some n => n end in
        make_bytes content_size
    | Some c => c
    end in
  let size := match size with None => length content | Some n => n end in
  {| lf_sha256 := sha256_hexdigest content;
     lf_size := length content;
     lf_total_size := size;
     lf_content := content |}.

End BootResourceTests.

(** ** More scenarios *)

Module Fixtures.
Import Certificates Runserver Admin.

(** A host whose paths are plain strings. *)
Definition string_host (snap : bool) (files : list string) : Host string :=
  {| path_of := λ s, s;
     joinpath := λ p name, p ++ "/" ++ name;
     str := λ p, p;
     exists_ := λ p, bool_decide (p ∈ files);
     running_in_snap := snap;
     snap_common := "/var/snap/maas/common";
     get_tentative_data_path := λ p, p |}.

(** The same host with another data-path helper. *)
Definition with_data_root {Path} (root : string) (h : Host Path)
  : Host Path :=
  {| path_of := path_of h;
     joinpath := joinpath h;
     str := str h;
     exists_ := exists_ h;
     running_in_snap := running_in_snap h;
     snap_common := snap_common h;
     get_tentative_data_path := λ p, root ++ p |}.

(** The same host with another snap directory. *)
Definition with_snap_common {Path} (common : Path) (h : Host Path)
  : Host Path :=
  {| path_of := path_of h;
     joinpath := joinpath h;
     str := str h;
     exists_ := exists_ h;
     running_in_snap := running_in_snap h;
     snap_common := common;
     get_tentative_data_path := get_tentative_data_path h |}.

Definition maas_models : list Model :=
  [AppModel "Node"; AppModel "NodeGroup"; AppModel "Tag"].

(** A power type with a choice whose default is none of its choices. *)
Definition bad_default_parameters : list PowerParameters.json :=
  [PowerParameters.JObj
     [("name", PowerParameters.JStr "ipmi");
      ("description", PowerParameters.JStr "IPMI");
      ("fields",
       PowerParameters.JArr
         [Scenario.make_json_field "power_address" "Address";
          PowerParameters.JObj
            [("name", PowerParameters.JStr "power_driver");
             ("label", PowerParameters.JStr "Power driver");
             ("field_type", PowerParameters.JStr "choice");
             ("required", PowerParameters.JBool false);
             ("choices",
              PowerParameters.JArr
                [PowerParameters.JArr
                   [PowerParameters.JStr "LAN";
                    PowerParameters.JStr "LAN [IPMI 1.5]"];
                 PowerParameters.JArr
                   [PowerParameters.JStr "LAN_2_0";
                    PowerParameters.JStr "LAN_2_0 [IPMI 2.0]"]]);
             ("default", PowerParameters.JStr "SERIAL")]])]].

End Fixtures.

(** * Properties of the power dispatcher *)

Import Twisted Power.

(** The run of the body of [power_node], by what the connection directory
    answers: the log line and the lookup always happen, the RPC call only
    once a client is there. *)
Lemma power_node_deferred_run (w : World) (command : Command)
    (system_id hostname cluster_uuid : string) (power_info : PowerInfo) :
  run (power_node_deferred w command system_id hostname cluster_uuid
         power_info) =
  match directory w cluster_uuid with
  | Fired t (inl client) =>
      (delayed t
         (map_failure Remote
            (cluster w client command
               (rpc_kwargs system_id hostname power_info))),
       [LogDebug (asking_message hostname); ResolveClient cluster_uuid;
        RpcCall client command (rpc_kwargs system_id hostname power_info)])
  | Fired t (inr e) =>
      (Fired t (inr e),
       [LogDebug (asking_message hostname); ResolveClient cluster_uuid])
  | Unfired =>
      (Unfired,
       [LogDebug (asking_message hostname); ResolveClient cluster_uuid])
  end.
Proof.
  unfold run, power_node_deferred, getClientFor, maaslog_debug, emit,
    call_power_command, call_client, addCallback, mbind, mret, Run_bind,
    Run_ret, rpc_kwargs, asking_message.
  simpl.
  destruct (directory w cluster_uuid) as [t [client | e] | ]; reflexivity.
Qed.

(** The decorator adds nothing to the run but the wait. *)
Lemma power_node_run (w : World) (command : Command)
    (system_id hostname cluster_uuid : string) (power_info : PowerInfo) :
  run (power_node w command system_id hostname cluster_uuid power_info) =
  let r := run (power_node_deferred w command system_id hostname
                  cluster_uuid power_info) in
  (wait 15 r.1, r.2).
Proof.
  unfold power_node, asynchronous, run, mbind, mret, Run_bind, Run_ret.
  destruct (power_node_deferred _ _ _ _ _ _ []); reflexivity.
Qed.

Lemma wait_fired_in_time {E A} (timeout t : nat) (r : A + E) :
  (t ≤ timeout)%nat →
  wait timeout (Fired t r) =
  match r with inl a => Returned a | inr e => Raised e end.
Proof.
  intros Hle. apply Nat.leb_le in Hle.
  destruct r; simpl; rewrite Hle; reflexivity.
Qed.

Lemma wait_fired_late {E A} (timeout t : nat) (r : A + E) :
  (timeout < t)%nat → wait timeout (Fired t r) = TimedOut.
Proof.
  intros Hlt. apply Nat.leb_gt in Hlt.
  destruct r; simpl; rewrite Hlt; reflexivity.
Qed.

(** C1. When the client is resolved and the cluster answers the call in
    time, the Deferred of [power_node] fires with that very answer, and the
    caller holds it: a clean return reads as Success, an unknown power type
    as UnknownPowerType, a not-implemented operation as Unsupported, and
    any other fault as RemoteFailure with the remote message for detail.
    Nothing is swallowed. *)
Theorem power_node_reports_remote_reply (w : World) (command : Command)
    (system_id hostname cluster_uuid : string) (power_info : PowerInfo)
    (client : Client) (t1 t2 : nat) (reply : Response + RemoteFault) :
  directory w cluster_uuid = Fired t1 (inl client) →
  cluster w client command (rpc_kwargs system_id hostname power_info) =
    Fired t2 reply →
  (t1 + t2 ≤ 15)%nat →
  let d := (run (power_node_deferred w command system_id hostname
                   cluster_uuid power_info)).1 in
  let r := (run (power_node w command system_id hostname cluster_uuid
                   power_info)).1 in
  d = Fired (t1 + t2)%nat (reply_result reply) ∧
  r = waited_of (reply_result reply) ∧
  (∀ response, reply = inl response →
     r = Returned response ∧ status (outcome_of r) = Success) ∧
  (reply = inr UnknownPowerType →
     status (outcome_of r) = StatusUnknownPowerType) ∧
  (reply = inr NotImplementedError → status (outcome_of r) = Unsupported) ∧
  (∀ msg, reply = inr (DriverFault msg) →
     outcome_of r = {| status := RemoteFailure; detail := msg |}).
Proof.
  intros Hdir Hcall Hle d r.
  assert (Hd : d = Fired (t1 + t2)%nat (reply_result reply)).
  { subst d. rewrite power_node_deferred_run, Hdir. simpl. rewrite Hcall.
    destruct reply; reflexivity. }
  assert (Hr : r = waited_of (reply_result reply)).
  { subst r. rewrite power_node_run. simpl. fold d. rewrite Hd.
    rewrite wait_fired_in_time by exact Hle.
    destruct reply; reflexivity. }
  split; [exact Hd |]. split; [exact Hr |].
  rewrite Hr.
  repeat split; intros; subst reply; reflexivity.
Qed.

Lemma power_node_reports_remote_reply_witness :
  let w := Scenario.replying 2 3 (inr (DriverFault "ipmitool: timeout")) in
  let r := (run (power_node w PowerOn "node-1" "node-1.example" "cluster-a"
                   Scenario.ipmi_info)).1 in
  (2 + 3 ≤ 15)%nat ∧
  outcome_of r =
    {| status := RemoteFailure; detail := "ipmitool: timeout" |}.
Proof.
  intros w r. split; [lia |].
  apply (power_node_reports_remote_reply w PowerOn "node-1" "node-1.example"
           "cluster-a" Scenario.ipmi_info Scenario.cluster_a 2 3
           (inr (DriverFault "ipmitool: timeout"))).
  - reflexivity.
  - reflexivity.
  - lia.
  - reflexivity.
Defined.

(** C3. When the lookup of the connection for the cluster fails, the
    Deferred of [power_node] fails with that same failure, no RPC call is
    among the events of the run, and a caller still waiting holds
    ConnectionUnavailable. *)
Theorem power_node_unresolved_no_call (w : World) (command : Command)
    (system_id hostname cluster_uuid : string) (power_info : PowerInfo)
    (t : nat) :
  directory w cluster_uuid = Fired t (inr NoConnectionsAvailable) →
  let body := run (power_node_deferred w command system_id hostname
                     cluster_uuid power_info) in
  let call := run (power_node w command system_id hostname cluster_uuid
                     power_info) in
  body.1 = Fired t (inr NoConnectionsAvailable) ∧
  rpc_calls body.2 = [] ∧
  rpc_calls call.2 = [] ∧
  ((t ≤ 15)%nat →
     call.1 = Raised NoConnectionsAvailable ∧
     status (outcome_of call.1) = ConnectionUnavailable).
Proof.
  intros Hdir body call.
  assert (Hbody : body =
            (Fired t (inr NoConnectionsAvailable),
             [LogDebug (asking_message hostname);
              ResolveClient cluster_uuid])).
  { subst body. rewrite power_node_deferred_run, Hdir. reflexivity. }
  assert (Hcall : call = (wait 15 body.1, body.2)).
  { subst call body. apply power_node_run. }
  rewrite Hcall, Hbody. simpl fst. simpl snd.
  split; [reflexivity |]. split; [reflexivity |]. split; [reflexivity |].
  intros Hle. apply Nat.leb_le in Hle. rewrite Hle.
  split; reflexivity.
Qed.

Lemma power_node_unresolved_no_call_witness :
  let call := run (power_node (Scenario.unreachable 4) PowerOff "node-1"
                     "node-1.example" "cluster-a" Scenario.ipmi_info) in
  rpc_calls call.2 = [] ∧ call.1 = Raised NoConnectionsAvailable.
Proof.
  intros call.
  destruct (power_node_unresolved_no_call (Scenario.unreachable 4) PowerOff
              "node-1" "node-1.example" "cluster-a" Scenario.ipmi_info 4
              eq_refl) as (_ & _ & Hcalls & Hres).
  split; [exact Hcalls |].
  apply Hres. lia.
Defined.

(** C8. Once the connection is resolved the dispatcher issues the call
    [command(system_id, hostname, power_type, context)] on that connection,
    with the power type and the context of the power information, and it
    issues it once: whatever the cluster answers, and whether or not the
    answer comes in time, this is the only RPC call of the run. *)
Theorem power_node_issues_one_call (w : World) (command : Command)
    (system_id hostname cluster_uuid : string) (power_info : PowerInfo)
    (client : Client) (t : nat) :
  directory w cluster_uuid = Fired t (inl client) →
  rpc_calls (run (power_node w command system_id hostname cluster_uuid
                    power_info)).2 =
  [RpcCall client command
     {| kw_system_id := system_id;
        kw_hostname := hostname;
        kw_power_type := power_type power_info;
        kw_context := power_parameters power_info |}].
Proof.
  intros Hdir.
  rewrite power_node_run. simpl snd.
  rewrite power_node_deferred_run, Hdir. reflexivity.
Qed.

Lemma power_node_issues_one_call_witness :
  rpc_calls
    (run (power_node (Scenario.replying 1 40 (inr UnknownPowerType)) PowerOn
            "node-1" "node-1.example" "cluster-a" Scenario.ipmi_info)).2 =
  [RpcCall Scenario.cluster_a PowerOn
     {| kw_system_id := "node-1";
        kw_hostname := "node-1.example";
        kw_power_type := "ipmi";
        kw_context := {[ "power_address" := "10.0.0.5" ]} |}].
Proof.
  apply (power_node_issues_one_call (Scenario.replying 1 40
           (inr UnknownPowerType)) PowerOn "node-1" "node-1.example"
           "cluster-a" Scenario.ipmi_info Scenario.cluster_a 1).
  reflexivity.
Defined.

(** C9. [power_on_node] and [power_off_node] are [power_node] with the
    command fixed to [PowerOn] and to [PowerOff]: for all other arguments,
    and in every world, they are the same run. *)
Theorem power_on_off_are_power_node (w : World)
    (system_id hostname cluster_uuid : string) (power_info : PowerInfo) :
  power_on_node w system_id hostname cluster_uuid power_info =
    power_node w PowerOn system_id hostname cluster_uuid power_info ∧
  power_off_node w system_id hostname cluster_uuid power_info =
    power_node w PowerOff system_id hostname cluster_uuid power_info.
Proof. split; reflexivity. Qed.

(** C10. Whatever the command, [PowerOff] included, the first event of a
    run of [power_node] is the debug line [<hostname>: Asking cluster to
    power on node.], the lookup of the client comes right after it, and all
    that follows are RPC calls: the logged text does not depend on the
    command. *)
Theorem power_node_logs_power_on (w : World) (command : Command)
    (system_id hostname cluster_uuid : string) (power_info : PowerInfo) :
  let tr := (run (power_node w command system_id hostname cluster_uuid
                    power_info)).2 in
  tr = LogDebug (hostname ++ ": Asking cluster to power on node.")
         :: ResolveClient cluster_uuid :: rpc_calls tr ∧
  (run (power_off_node w system_id hostname cluster_uuid power_info)).2 !! 0
    = Some (LogDebug (hostname ++ ": Asking cluster to power on node.")).
Proof.
  intros tr. subst tr. unfold power_off_node.
  rewrite !power_node_run. simpl snd.
  rewrite !power_node_deferred_run.
  destruct (directory w cluster_uuid) as [t [client | e] | ];
    split; reflexivity.
Qed.

(** The claim of C2 as it is written fails: no call of [power_node]
    enforces a deadline of 1 unit, which the design document asks for in
    its scenario. With a connection resolved at once and an answer after 5
    units, [power_on_node] for node-1 returns the answer instead of timing
    out. *)
Lemma power_node_deadline_not_per_call :
  (run (power_on_node (Scenario.replying 0 5 (inl ∅)) "node-1"
          "node-1.example" "cluster-a" Scenario.ipmi_info)).1 = Returned ∅ ∧
  ¬ ∃ command system_id hostname cluster_uuid power_info,
      enforces_deadline
        (λ w, power_node w command system_id hostname cluster_uuid
                power_info)
        (λ w, power_node_deferred w command system_id hostname cluster_uuid
                power_info)
        1.
Proof.
  split; [reflexivity |].
  intros (command & system_id & hostname & cluster_uuid & power_info & H).
  specialize (H (Scenario.replying 0 5 (inl ∅))). cbv beta in H.
  rewrite power_node_run in H. simpl fst in H.
  discriminate H.
Qed.

(** C2, amended. Every dispatch, through [power_node], [power_on_node] or
    [power_off_node], enforces the deadline of 15 units that the decorator
    fixes; the operation takes no deadline among its arguments, and 15 is
    the only deadline any call enforces. *)
Theorem power_node_deadline_is_15 (command : Command)
    (system_id hostname cluster_uuid : string) (power_info : PowerInfo) :
  enforces_deadline
    (λ w, power_node w command system_id hostname cluster_uuid power_info)
    (λ w, power_node_deferred w command system_id hostname cluster_uuid
            power_info)
    15 ∧
  enforces_deadline
    (λ w, power_on_node w system_id hostname cluster_uuid power_info)
    (λ w, power_node_deferred w PowerOn system_id hostname cluster_uuid
            power_info)
    15 ∧
  enforces_deadline
    (λ w, power_off_node w system_id hostname cluster_uuid power_info)
    (λ w, power_node_deferred w PowerOff system_id hostname cluster_uuid
            power_info)
    15 ∧
  ∀ n : nat,
    enforces_deadline
      (λ w, power_node w command system_id hostname cluster_uuid power_info)
      (λ w, power_node_deferred w command system_id hostname cluster_uuid
              power_info)
      n →
    n = 15%nat.
Proof.
  assert (Hfix : ∀ c,
            enforces_deadline
              (λ w, power_node w c system_id hostname cluster_uuid
                      power_info)
              (λ w, power_node_deferred w c system_id hostname cluster_uuid
                      power_info)
              15).
  { intros c w. cbv beta. rewrite power_node_run. reflexivity. }
  split; [apply Hfix |]. split; [apply (Hfix PowerOn) |].
  split; [apply (Hfix PowerOff) |].
  intros n Hn.
  destruct (Nat.lt_trichotomy n 15) as [Hlt | [Heq | Hgt]];
    [| exact Heq |]; exfalso.
  - (* an answer at 15 is in time for the code, late for [n] *)
    specialize (Hn (Scenario.replying 0 15 (inl ∅))). cbv beta in Hn.
    rewrite power_node_run in Hn. simpl fst in Hn.
    change (Returned (E := Failure) (∅ : Response) =
            wait n (Fired 15 (inl ∅))) in Hn.
    rewrite wait_fired_late in Hn by exact Hlt. discriminate Hn.
  - (* an answer at [n] is late for the code *)
    specialize (Hn (Scenario.replying 0 n (inl ∅))). cbv beta in Hn.
    rewrite power_node_run in Hn. simpl fst in Hn.
    change (wait 15 (Fired n (inl (∅ : Response))) =
            wait (E := Failure) n (Fired n (inl ∅))) in Hn.
    rewrite wait_fired_late in Hn by exact Hgt.
    rewrite wait_fired_in_time in Hn by reflexivity. discriminate Hn.
Qed.

Lemma power_node_deadline_is_15_witness :
  (run (power_node (Scenario.replying 6 10 (inl ∅)) PowerOn "node-1"
          "node-1.example" "cluster-a" Scenario.ipmi_info)).1 = TimedOut.
Proof.
  destruct (power_node_deadline_is_15 PowerOn "node-1" "node-1.example"
              "cluster-a" Scenario.ipmi_info) as (H & _).
  rewrite (H (Scenario.replying 6 10 (inl ∅))). reflexivity.
Defined.

(** * Properties of the power-type catalog *)

Import PowerParameters.

Lemma has_name_new_power_type (name description : string) (fields : json) :
  has_name name (new_power_type name description fields) = true.
Proof. unfold has_name. simpl. apply String.eqb_refl. Qed.

Lemma add_existing_unchanged (other_kinds : list string)
    (name description : string) (fields : json)
    (parameters_set : list json) :
  existsb (has_name name) parameters_set = true →
  add_power_type_parameters other_kinds name description fields parameters_set =
    (inl tt, parameters_set).
Proof.
  intros Hin. unfold add_power_type_parameters. rewrite Hin. reflexivity.
Qed.

(** The three ways a call can end. *)
Lemma add_power_type_parameters_cases (other_kinds : list string)
    (name description : string)
    (fields : json) (parameters_set : list json) :
  let r := add_power_type_parameters other_kinds name description fields
             parameters_set in
  (existsb (has_name name) parameters_set = true ∧
   r = (inl tt, parameters_set)) ∨
  (existsb (has_name name) parameters_set = false ∧
   valid_catalog other_kinds
     (JArr (parameters_set ++ [new_power_type name description fields])) =
     true ∧
   r = (inl tt,
        (parameters_set ++ [new_power_type name description fields])%list)) ∨
  (existsb (has_name name) parameters_set = false ∧
   r = (inr SchemaValidationError, parameters_set)).
Proof.
  unfold add_power_type_parameters.
  destruct (existsb (has_name name) parameters_set) eqn:Hin.
  - left. split; reflexivity.
  - right. destruct (valid_field_set other_kinds fields); cbn [negb].
    + destruct (valid_catalog other_kinds
                  (JArr (parameters_set ++
                           [new_power_type name description fields])))
        eqn:Hall.
      * left. split; [reflexivity |]. split; reflexivity.
      * right. split; reflexivity.
    + right. split; reflexivity.
Qed.

Lemma added_name_is_there (other_kinds : list string)
    (name description : string) (fields : json)
    (parameters_set : list json) :
  (add_power_type_parameters other_kinds name description fields
     parameters_set).1 =
    inl tt →
  existsb (has_name name)
    (add_power_type_parameters other_kinds name description fields
       parameters_set).2 =
    true.
Proof.
  intros Hok.
  destruct (add_power_type_parameters_cases other_kinds name description fields
              parameters_set) as [(Hin & Hr) | [(_ & _ & Hr) | (_ & Hr)]];
    rewrite Hr in Hok |- *; simpl in *.
  - exact Hin.
  - rewrite existsb_app. simpl. rewrite has_name_new_power_type.
    apply orb_true_iff. right. reflexivity.
  - discriminate Hok.
Qed.

(** C4. A call of [add_power_type_parameters] for a name that is in the
    registry already is a no-op: it returns and leaves the registry as it
    was, whatever description and fields it is given. So after a call has
    returned, calling again for the same name, with any description and
    fields, changes nothing. *)
Theorem add_power_type_parameters_existing_noop (other_kinds : list string)
    (name : string)
    (parameters_set : list json) :
  (existsb (has_name name) parameters_set = true →
   ∀ description fields,
     add_power_type_parameters other_kinds name description fields
       parameters_set =
       (inl tt, parameters_set)) ∧
  (∀ description fields description' fields',
     let first := add_power_type_parameters other_kinds name description fields
                    parameters_set in
     first.1 = inl tt →
     add_power_type_parameters other_kinds name description' fields' first.2 =
       (inl tt, first.2)).
Proof.
  split.
  - intros Hin description fields. apply add_existing_unchanged, Hin.
  - intros description fields description' fields' first Hok.
    apply add_existing_unchanged. subst first.
    apply added_name_is_there, Hok.
Qed.

Lemma add_power_type_parameters_existing_noop_witness :
  add_power_type_parameters [] "blah" "baz"
    (JArr [Scenario.make_json_field "address" "Address"])
    Scenario.blah_registry =
  (inl tt, Scenario.blah_registry).
Proof.
  apply (proj1 (add_power_type_parameters_existing_noop [] "blah"
                  Scenario.blah_registry)).
  reflexivity.
Defined.

(** C5. After a call of [add_power_type_parameters] that has added an
    entry and returned, the registry satisfies the catalog schema; a call
    that returns never takes a registry that satisfies the schema to one
    that does not; and a call that fails with a schema validation error
    leaves the registry as it was. *)
Theorem add_power_type_parameters_keeps_valid (other_kinds : list string)
    (name description : string)
    (fields : json) (parameters_set : list json) :
  let r := add_power_type_parameters other_kinds name description fields
             parameters_set in
  (r.1 = inl tt → existsb (has_name name) parameters_set = false →
     valid_catalog other_kinds (JArr r.2) = true) ∧
  (r.1 = inl tt → valid_catalog other_kinds (JArr parameters_set) = true →
     valid_catalog other_kinds (JArr r.2) = true) ∧
  (r.1 = inr SchemaValidationError → r.2 = parameters_set).
Proof.
  intros r.
  destruct (add_power_type_parameters_cases other_kinds name description fields
              parameters_set)
    as [(Hin & Hr) | [(Hin & Hall & Hr) | (Hin & Hr)]];
    fold r in Hr; rewrite Hr; simpl.
  - split; [intros _ Hout; congruence |]. split; [auto | reflexivity].
  - split; [auto |]. split; [auto |]. intros Hbad. discriminate Hbad.
  - split; [intros Hbad; discriminate Hbad |].
    split; [intros Hbad; discriminate Hbad | reflexivity].
Qed.

Lemma add_power_type_parameters_keeps_valid_witness :
  valid_catalog []
    (JArr (add_power_type_parameters [] "blah" "baz"
             (JArr [Scenario.make_json_field "address" "Address"]) []).2) =
    true ∧
  (add_power_type_parameters [] "blah" "baz" (JArr [JObj []]) []).2 = [].
Proof.
  split.
  - apply (add_power_type_parameters_keeps_valid [] "blah" "baz"
             (JArr [Scenario.make_json_field "address" "Address"]) []);
      reflexivity.
  - apply (add_power_type_parameters_keeps_valid [] "blah" "baz"
             (JArr [JObj []]) []).
    reflexivity.
Defined.

Lemma array_of_inv (ty : json → bool) (j : json) :
  array_of ty j = true → ∃ items, j = JArr items ∧ forallb ty items = true.
Proof.
  destruct j as [| | | | items |]; simpl; try discriminate.
  intros H. exists items. split; [reflexivity | exact H].
Qed.

Lemma fields_of_member (doc : json) (fields : list json) :
  member "fields" doc = Some (JArr fields) → fields_of doc = fields.
Proof. intros H. unfold fields_of. rewrite H. reflexivity. Qed.

(** A power type with a field that fails the field schema fails the
    power-type schema. *)
Lemma invalid_field_invalid_power_type (other_kinds : list string)
    (entry : json) (fields : list json)
    (field : json) :
  member "fields" entry = Some (JArr fields) →
  field ∈ fields →
  valid_field other_kinds field = false →
  valid_power_type other_kinds entry = false.
Proof.
  intros Hfields Hin Hbad.
  unfold valid_power_type.
  assert (Hreq : required_key "fields" (valid_field_set other_kinds) entry =
                 false).
  { unfold required_key. rewrite Hfields. simpl.
    apply not_true_is_false. intros Hall.
    rewrite forallb_forall in Hall.
    apply list_elem_of_In in Hin. specialize (Hall field Hin). congruence. }
  rewrite Hreq. apply andb_false_r.
Qed.

Lemma existsb_eqb_elem (s : string) (l : list string) :
  existsb (String.eqb s) l = true ↔ s ∈ l.
Proof.
  rewrite existsb_exists. split.
  - intros (x & Hin & Heq). apply String.eqb_eq in Heq as ->.
    apply list_elem_of_In, Hin.
  - intros Hin. exists s. split; [apply list_elem_of_In, Hin |].
    apply String.eqb_refl.
Qed.

(** What makes a field document fail the field schema: a key that must be
    there is missing, the kind is not a recognised one, the choices are
    not a list of pairs, or the field is a choice whose default is not
    empty and is the value of none of its choices. *)
Lemma invalid_field_rules (other_kinds : list string) (doc : json) :
  (∃ key, key ∈ ["name"; "label"; "field_type"; "required"] ∧
          member key doc = None) ∨
  (∃ kind, member "field_type" doc = Some (JStr kind) ∧
           kind ∉ (named_kinds ++ other_kinds)%list) ∨
  (∃ v, member "choices" doc = Some v ∧ array_of valid_choice v = false) ∨
  (member "field_type" doc = Some (JStr "choice") ∧
   ∃ default, member "default" doc = Some (JStr default) ∧
              default ≠ "" ∧
              default ∉ (choices_of (member "choices" doc)).*1) →
  valid_field other_kinds doc = false.
Proof.
  unfold valid_field.
  intros [(key & Hkey & Hnone) | [(kind & Hkind & Hnew) |
          [(v & Hv & Hbad) | (Hkind & default & Hdef & Hne & Hout)]]].
  - assert (Hreq : ∀ ty, required_key key ty doc = false)
      by (intros ty; unfold required_key; rewrite Hnone; reflexivity).
    rewrite !elem_of_cons, elem_of_nil in Hkey.
    destruct Hkey as [-> | [-> | [-> | [-> | []]]]]; rewrite Hreq;
      rewrite ?andb_false_r; reflexivity.
  - assert (Hreq : required_key "field_type" (recognised_kind other_kinds)
                     doc = false).
    { unfold required_key. rewrite Hkind. unfold recognised_kind.
      apply not_true_is_false. rewrite existsb_eqb_elem. exact Hnew. }
    rewrite Hreq, ?andb_false_r. reflexivity.
  - assert (Hopt : optional_key "choices" (array_of valid_choice) doc =
                     false)
      by (unfold optional_key; rewrite Hv; exact Hbad).
    rewrite Hopt, ?andb_false_r. reflexivity.
  - assert (Hrule : choice_default_ok doc = false).
    { unfold choice_default_ok. rewrite Hkind, Hdef.
      cbn [string_of]. rewrite String.eqb_refl.
      apply orb_false_iff. split.
      - apply String.eqb_neq, Hne.
      - apply not_true_is_false. rewrite existsb_eqb_elem. exact Hout. }
    rewrite Hrule. apply andb_false_r.
Qed.

(** C6. When any entry of the input holds a field document that fails
    the field schema, [get_power_type_parameters_from_json] fails the
    whole call with a schema validation error: no catalog comes back, not
    even for the entries before the bad one. This holds for every way a
    field can be invalid, the unrecognised kind and the default that is
    none of the choices included. *)
Theorem invalid_field_fails_whole_call (other_kinds : list string)
    (docs : list json) (entry : json) (fields : list json) (field : json) :
  entry ∈ docs →
  member "fields" entry = Some (JArr fields) →
  field ∈ fields →
  valid_field other_kinds field = false ∨
  (∃ key, key ∈ ["name"; "label"; "field_type"; "required"] ∧
          member key field = None) ∨
  (∃ kind, member "field_type" field = Some (JStr kind) ∧
           kind ∉ (named_kinds ++ other_kinds)%list) ∨
  (∃ v, member "choices" field = Some v ∧
        array_of valid_choice v = false) ∨
  (member "field_type" field = Some (JStr "choice") ∧
   ∃ default, member "default" field = Some (JStr default) ∧
              default ≠ "" ∧
              default ∉ (choices_of (member "choices" field)).*1) →
  get_power_type_parameters_from_json other_kinds (JArr docs) =
    inr SchemaValidationError.
Proof.
  intros Hentry Hfields Hfield Hbad.
  assert (Hinvalid : valid_field other_kinds field = false).
  { destruct Hbad as [Hbad | Hbad]; [exact Hbad |].
    apply invalid_field_rules, Hbad. }
  unfold get_power_type_parameters_from_json.
  assert (Hall : valid_catalog other_kinds (JArr docs) = false).
  { simpl. apply not_true_is_false. intros Hall.
    rewrite forallb_forall in Hall.
    apply list_elem_of_In in Hentry. specialize (Hall entry Hentry).
    rewrite (invalid_field_invalid_power_type other_kinds entry fields
               field) in Hall;
      [discriminate Hall | assumption ..]. }
  rewrite Hall. reflexivity.
Qed.

Lemma invalid_field_fails_whole_call_witness :
  get_power_type_parameters_from_json ["ip_address"]
    (JArr Fixtures.bad_default_parameters) =
  inr SchemaValidationError.
Proof.
  apply (invalid_field_fails_whole_call ["ip_address"]
           Fixtures.bad_default_parameters
           (JObj
              [("name", JStr "ipmi"); ("description", JStr "IPMI");
               ("fields",
                JArr
                  [Scenario.make_json_field "power_address" "Address";
                   JObj
                     [("name", JStr "power_driver");
                      ("label", JStr "Power driver");
                      ("field_type", JStr "choice");
                      ("required", JBool false);
                      ("choices",
                       JArr [JArr [JStr "LAN"; JStr "LAN [IPMI 1.5]"];
                             JArr [JStr "LAN_2_0";
                                   JStr "LAN_2_0 [IPMI 2.0]"]]);
                      ("default", JStr "SERIAL")]])])
           [Scenario.make_json_field "power_address" "Address";
            JObj
              [("name", JStr "power_driver");
               ("label", JStr "Power driver");
               ("field_type", JStr "choice");
               ("required", JBool false);
               ("choices",
                JArr [JArr [JStr "LAN"; JStr "LAN [IPMI 1.5]"];
                      JArr [JStr "LAN_2_0"; JStr "LAN_2_0 [IPMI 2.0]"]]);
               ("default", JStr "SERIAL")]]
           (JObj
              [("name", JStr "power_driver");
               ("label", JStr "Power driver");
               ("field_type", JStr "choice");
               ("required", JBool false);
               ("choices",
                JArr [JArr [JStr "LAN"; JStr "LAN [IPMI 1.5]"];
                      JArr [JStr "LAN_2_0"; JStr "LAN_2_0 [IPMI 2.0]"]]);
               ("default", JStr "SERIAL")])).
  - apply list_elem_of_here.
  - reflexivity.
  - apply list_elem_of_further, list_elem_of_here.
  - left. reflexivity.
Defined.

Lemma make_form_fields_valid (other_kinds : list string)
    (fields : list json) :
  forallb (valid_field other_kinds) fields = true →
  ∃ fds, make_form_fields other_kinds fields = inl fds.
Proof.
  induction fields as [| f rest IH]; simpl; intros Hall.
  - exists []. reflexivity.
  - apply andb_true_iff in Hall as [Hf Hrest].
    destruct (IH Hrest) as [fds Hfds].
    unfold make_form_field. rewrite Hf, Hfds. eauto.
Qed.

Lemma make_entry_valid (other_kinds : list string) (power_type : json) :
  valid_power_type other_kinds power_type = true →
  ∃ entry, make_entry other_kinds power_type = inl entry ∧
           pt_name entry = name_of power_type.
Proof.
  unfold valid_power_type. intros Hvalid.
  apply andb_true_iff in Hvalid as [_ Hfields].
  unfold required_key in Hfields.
  destruct (member "fields" power_type) as [v |] eqn:Hmem;
    [| discriminate Hfields].
  apply array_of_inv in Hfields as (fields & -> & Hall).
  destruct (make_form_fields_valid other_kinds fields Hall) as [fds Hfds].
  unfold make_entry. rewrite (fields_of_member _ _ Hmem), Hfds.
  eexists. split; reflexivity.
Qed.

(** The loop adds exactly the names of the documents to the keys it
    starts from, and leaves every other key as it was. *)
Lemma add_entries_keys (other_kinds : list string) (power_types : list json) :
  forallb (valid_power_type other_kinds) power_types = true →
  ∀ acc : gmap string PowerTypeEntry,
  ∃ catalog,
    add_entries other_kinds power_types acc = inl catalog ∧
    dom catalog = dom acc ∪ list_to_set (name_of <$> power_types) ∧
    ∀ key, key ∉ name_of <$> power_types → catalog !! key = acc !! key.
Proof.
  induction power_types as [| d rest IH]; simpl; intros Hall acc.
  - exists acc. split; [reflexivity |]. split; [set_solver | reflexivity].
  - apply andb_true_iff in Hall as [Hd Hrest].
    destruct (make_entry_valid other_kinds d Hd) as (entry & Hentry & Hname).
    rewrite Hentry, Hname.
    destruct (IH Hrest (<[name_of d := entry]> acc))
      as (catalog & Hrun & Hdom & Hkeep).
    exists catalog. split; [exact Hrun |]. split.
    + rewrite Hdom, dom_insert_L. set_solver.
    + intros key Hkey.
      rewrite Hkeep by set_solver.
      apply lookup_insert_ne. set_solver.
Qed.

(** C7. For every input that satisfies the catalog schema,
    [get_power_type_parameters_from_json] answers with a catalog whose keys
    are the names of the input and the empty name, no more and no less; the
    entry of the empty name has no fields when the input does not name it;
    and from no documents at all comes the catalog of that one entry. *)
Theorem catalog_keys_are_names_and_empty (other_kinds : list string) :
  (∀ docs : list json,
     valid_catalog other_kinds (JArr docs) = true →
     ∃ catalog,
       get_power_type_parameters_from_json other_kinds (JArr docs) =
         inl catalog ∧
       dom catalog = {[ "" ]} ∪ list_to_set (name_of <$> docs) ∧
       ("" ∉ name_of <$> docs → catalog !! "" = Some empty_entry)) ∧
  get_power_type_parameters_from_json other_kinds (JArr []) =
    inl {[ "" := empty_entry ]} ∧
  pt_fields empty_entry = [].
Proof.
  split; [| split; reflexivity].
  intros docs Hvalid.
  unfold get_power_type_parameters_from_json. rewrite Hvalid.
  simpl in Hvalid.
  destruct (add_entries_keys other_kinds docs Hvalid {[ "" := empty_entry ]})
    as (catalog & Hrun & Hdom & Hkeep).
  exists catalog. split; [exact Hrun |]. split.
  - rewrite Hdom, dom_singleton_L. reflexivity.
  - intros Hfresh. rewrite (Hkeep "" Hfresh). apply lookup_singleton_eq.
Qed.

Lemma catalog_keys_are_names_and_empty_witness :
  ∃ catalog,
    get_power_type_parameters_from_json []
      (JArr Scenario.something_parameters) = inl catalog ∧
    dom catalog = {[ "" ; "something" ]} ∧
    catalog !! "" = Some empty_entry.
Proof.
  destruct (proj1 (catalog_keys_are_names_and_empty [])
              Scenario.something_parameters eq_refl)
    as (catalog & Hrun & Hdom & Hempty).
  exists catalog. split; [exact Hrun |]. split.
  - rewrite Hdom. simpl. set_solver.
  - apply Hempty. simpl. set_solver.
Defined.

(** * The tests of the repository, run on the model *)

(** [test_validates_json_power_type_parameters]: a power type without a
    description, whose fields are a string. *)
Example test_validates_json_power_type_parameters :
  get_power_type_parameters_from_json []
    (JArr [JObj [("name", JStr "invalid_power_type");
                 ("fields", JStr "nothing to see here")]]) =
  inr SchemaValidationError.
Proof. reflexivity. Qed.

(** [test_adds_new_power_type_parameters]. *)
Example test_adds_new_power_type_parameters :
  add_power_type_parameters [] "blah" "baz"
    (JArr [Scenario.make_json_field "a" "b"]) [] =
  (inl tt,
   [JObj [("name", JStr "blah"); ("description", JStr "baz");
          ("fields", JArr [Scenario.make_json_field "a" "b"])]]).
Proof. reflexivity. Qed.

(** [test_validates_new_parameters]: a field that is an empty object. *)
Example test_validates_new_parameters :
  add_power_type_parameters [] "blah" "baz" (JArr [JObj []]) [] =
  (inr SchemaValidationError, []).
Proof. reflexivity. Qed.

(** The scenario of the design document: with the connection resolved and
    a cluster that never answers, the caller times out and the one call
    stays issued. *)
Example dispatch_without_reply_times_out :
  let w := {| directory := λ _, Fired 0 (inl Scenario.cluster_a);
              cluster := λ _ _ _, Unfired |} in
  let call := run (power_on_node w "node-1" "node-1.example" "cluster-a"
                     Scenario.ipmi_info) in
  outcome_of call.1 = {| status := Timeout; detail := "" |} ∧
  length (rpc_calls call.2) = 1%nat.
Proof. split; reflexivity. Qed.

(** * Further properties of the power dispatcher *)

(** X1. In every world a run of [power_node] issues at most one RPC call,
    and it issues one exactly when the lookup of the connection fires with
    a client: neither a failed lookup nor one that never fires leads to a
    call. *)
Theorem rpc_call_iff_client_resolved (w : World) (command : Command)
    (system_id hostname cluster_uuid : string) (power_info : PowerInfo) :
  let tr := (run (power_node w command system_id hostname cluster_uuid
                    power_info)).2 in
  (length (rpc_calls tr) ≤ 1)%nat ∧
  (rpc_calls tr ≠ [] ↔
   ∃ t client, directory w cluster_uuid = Fired t (inl client)).
Proof.
  intros tr. subst tr. rewrite power_node_run. simpl snd.
  rewrite power_node_deferred_run.
  destruct (directory w cluster_uuid) as [t [client | e] | ] eqn:Hdir;
    simpl; (split; [lia |]); split.
  - intros _. eauto.
  - intros _ Hnil. discriminate Hnil.
  - intros Hne. contradiction Hne. reflexivity.
  - intros (t' & client & Heq). discriminate Heq.
  - intros Hne. contradiction Hne. reflexivity.
  - intros (t' & client & Heq). discriminate Heq.
Qed.

(** X2. Whatever the Deferred of [power_node] fires with comes from
    outside: either the lookup failed, and the Deferred fires with that
    failure at that moment, or a client was found and the Deferred fires
    with the answer of the cluster to the one call, as late as the two
    delays together. The dispatcher adds no result or failure of its own. *)
Theorem power_node_deferred_result_origin (w : World) (command : Command)
    (system_id hostname cluster_uuid : string) (power_info : PowerInfo)
    (t : nat) (result : Response + Failure) :
  (run (power_node_deferred w command system_id hostname cluster_uuid
          power_info)).1 = Fired t result →
  (∃ e, directory w cluster_uuid = Fired t (inr e) ∧ result = inr e) ∨
  (∃ client t1 t2 reply,
     directory w cluster_uuid = Fired t1 (inl client) ∧
     cluster w client command (rpc_kwargs system_id hostname power_info) =
       Fired t2 reply ∧
     result = reply_result reply ∧ t = (t1 + t2)%nat).
Proof.
  rewrite power_node_deferred_run.
  destruct (directory w cluster_uuid) as [t1 [client | e] | ] eqn:Hdir;
    simpl; intros Hfired.
  - right.
    destruct (cluster w client command
                (rpc_kwargs system_id hostname power_info))
      as [t2 reply | ] eqn:Hcall; [| discriminate Hfired].
    exists client, t1, t2, reply.
    destruct reply; simpl in Hfired; inversion Hfired; subst; auto.
  - left. inversion Hfired; subst. eauto.
  - discriminate Hfired.
Qed.

Lemma power_node_deferred_result_origin_witness :
  (∃ e, directory (Scenario.unreachable 4) "cluster-a" = Fired 4 (inr e) ∧
        inr NoConnectionsAvailable = inr (B := Failure) (A := Response) e) ∨
  (∃ client t1 t2 reply,
     directory (Scenario.unreachable 4) "cluster-a" =
       Fired t1 (inl client) ∧
     cluster (Scenario.unreachable 4) client PowerOn
       (rpc_kwargs "node-1" "node-1.example" Scenario.ipmi_info) =
       Fired t2 reply ∧
     inr NoConnectionsAvailable = reply_result reply ∧ 4%nat = (t1 + t2)%nat).
Proof.
  apply (power_node_deferred_result_origin (Scenario.unreachable 4) PowerOn
           "node-1" "node-1.example" "cluster-a" Scenario.ipmi_info 4
           (inr NoConnectionsAvailable)).
  reflexivity.
Defined.

(** X3. The Deferred of [power_node] stays unfired only when the lookup
    never fires, or when a client was found and the cluster never answers
    the call. *)
Theorem power_node_deferred_unfired_iff (w : World) (command : Command)
    (system_id hostname cluster_uuid : string) (power_info : PowerInfo) :
  (run (power_node_deferred w command system_id hostname cluster_uuid
          power_info)).1 = Unfired ↔
  directory w cluster_uuid = Unfired ∨
  ∃ t client,
    directory w cluster_uuid = Fired t (inl client) ∧
    cluster w client command (rpc_kwargs system_id hostname power_info) =
      Unfired.
Proof.
  rewrite power_node_deferred_run.
  destruct (directory w cluster_uuid) as [t1 [client | e] | ] eqn:Hdir;
    simpl.
  - destruct (cluster w client command
                (rpc_kwargs system_id hostname power_info))
      as [t2 [r | f] | ] eqn:Hcall; simpl; split.
    + intros H. discriminate H.
    + intros [H | (t & c & Heq & H)]; [discriminate H |].
      inversion Heq; subst. congruence.
    + intros H. discriminate H.
    + intros [H | (t & c & Heq & H)]; [discriminate H |].
      inversion Heq; subst. congruence.
    + intros _. right. eauto.
    + reflexivity.
  - split; [intros H; discriminate H |].
    intros [H | (t & c & Heq & _)]; discriminate.
  - split; [auto | reflexivity].
Qed.

(** X4. A run of [power_node] only ever issues the command it was given:
    every RPC call of [power_on_node] is a [PowerOn], every RPC call of
    [power_off_node] a [PowerOff]. *)
Theorem power_node_issues_only_its_command (w : World) (command : Command)
    (system_id hostname cluster_uuid : string) (power_info : PowerInfo) :
  (∀ client c kwargs,
     RpcCall client c kwargs ∈
       (run (power_node w command system_id hostname cluster_uuid
               power_info)).2 →
     c = command) ∧
  (∀ client c kwargs,
     RpcCall client c kwargs ∈
       (run (power_on_node w system_id hostname cluster_uuid
               power_info)).2 →
     c = PowerOn) ∧
  (∀ client c kwargs,
     RpcCall client c kwargs ∈
       (run (power_off_node w system_id hostname cluster_uuid
               power_info)).2 →
     c = PowerOff).
Proof.
  assert (Hany : ∀ cmd client c kwargs,
            RpcCall client c kwargs ∈
              (run (power_node w cmd system_id hostname cluster_uuid
                      power_info)).2 →
            c = cmd).
  { intros cmd client c kwargs. rewrite power_node_run. simpl snd.
    rewrite power_node_deferred_run.
    destruct (directory w cluster_uuid) as [t [cl | e] | ]; simpl;
      rewrite ?elem_of_cons, elem_of_nil;
      intros H; repeat destruct H as [H | H];
      try discriminate H; try contradiction.
    inversion H. reflexivity. }
  split; [apply Hany |]. split; [apply (Hany PowerOn) | apply (Hany PowerOff)].
Qed.

(** X5. When the answer of the cluster comes after the 15 units of the
    decorator, or never, the caller of [power_node] gets a timeout, and
    the RPC call has been issued all the same: the timeout does not take
    the call back. *)
Theorem power_node_late_reply_times_out (w : World) (command : Command)
    (system_id hostname cluster_uuid : string) (power_info : PowerInfo)
    (client : Client) (t1 : nat) :
  directory w cluster_uuid = Fired t1 (inl client) →
  (cluster w client command (rpc_kwargs system_id hostname power_info) =
     Unfired ∨
   ∃ t2 reply,
     cluster w client command (rpc_kwargs system_id hostname power_info) =
       Fired t2 reply ∧ (15 < t1 + t2)%nat) →
  let call := run (power_node w command system_id hostname cluster_uuid
                     power_info) in
  call.1 = TimedOut ∧
  rpc_calls call.2 =
    [RpcCall client command (rpc_kwargs system_id hostname power_info)].
Proof.
  intros Hdir Hlate call. subst call.
  rewrite power_node_run. cbv zeta. cbn [fst snd].
  rewrite power_node_deferred_run, Hdir. cbn [fst snd].
  split; [| reflexivity].
  destruct Hlate as [Hnever | (t2 & reply & Hcall & Hlt)].
  - rewrite Hnever. reflexivity.
  - rewrite Hcall.
    destruct reply; simpl delayed; simpl map_failure;
      apply wait_fired_late; exact Hlt.
Qed.

Lemma power_node_late_reply_times_out_witness :
  let call := run (power_node (Scenario.replying 6 10 (inl ∅)) PowerOn
                     "node-1" "node-1.example" "cluster-a"
                     Scenario.ipmi_info) in
  call.1 = TimedOut ∧
  rpc_calls call.2 =
    [RpcCall Scenario.cluster_a PowerOn
       (rpc_kwargs "node-1" "node-1.example" Scenario.ipmi_info)].
Proof.
  apply (power_node_late_reply_times_out (Scenario.replying 6 10 (inl ∅))
           PowerOn "node-1" "node-1.example" "cluster-a" Scenario.ipmi_info
           Scenario.cluster_a 6).
  - reflexivity.
  - right. exists 10%nat, (inl ∅). split; [reflexivity | lia].
Defined.

(** * Properties of the certificate files *)

Import Certificates.

(** X6. [get_maas_cert_tuple] answers [None] exactly when the private key
    or the certificate is missing; otherwise both files are there and the
    answer holds the path of the certificate first and the path of the
    private key second. *)
Theorem get_maas_cert_tuple_none_iff_missing {Path} (h : Host Path) :
  let private_key := (maas_cert_paths h).1 in
  let certificate := (maas_cert_paths h).2 in
  (get_maas_cert_tuple h = None ↔
   exists_ h private_key = false ∨ exists_ h certificate = false) ∧
  (∀ pair, get_maas_cert_tuple h = Some pair →
     pair = (str h certificate, str h private_key) ∧
     exists_ h certificate = true ∧ exists_ h private_key = true).
Proof.
  intros private_key certificate. subst private_key certificate.
  unfold get_maas_cert_tuple.
  destruct (maas_cert_paths h) as [private_key certificate]. simpl.
  destruct (exists_ h private_key), (exists_ h certificate); simpl;
    naive_solver.
Qed.

Lemma get_maas_cert_tuple_none_iff_missing_witness :
  get_maas_cert_tuple
    (Fixtures.string_host false
       ["/etc/maas/certificates/maas.key";
        "/etc/maas/certificates/maas.crt"]) =
  Some ("/etc/maas/certificates/maas.crt",
        "/etc/maas/certificates/maas.key") ∧
  get_maas_cert_tuple
    (Fixtures.string_host true ["/var/snap/maas/common/certificates/maas.crt"])
  = None.
Proof.
  split.
  - destruct (get_maas_cert_tuple
                (Fixtures.string_host false
                   ["/etc/maas/certificates/maas.key";
                    "/etc/maas/certificates/maas.crt"])) as [pair |] eqn:Hget.
    + destruct (proj2 (get_maas_cert_tuple_none_iff_missing
                         (Fixtures.string_host false
                            ["/etc/maas/certificates/maas.key";
                             "/etc/maas/certificates/maas.crt"]))
                  pair Hget) as (-> & _ & _).
      reflexivity.
    + discriminate Hget.
  - apply (proj1 (get_maas_cert_tuple_none_iff_missing
                    (Fixtures.string_host true
                       ["/var/snap/maas/common/certificates/maas.crt"]))).
    left. reflexivity.
Defined.

(** X7. Inside a snap the answer of [get_maas_cert_tuple] does not depend
    on the data-path helper, which is never asked; outside a snap it does
    not depend on the directories of the snap. *)
Theorem get_maas_cert_tuple_reads_one_layout {Path} (h : Host Path) :
  (running_in_snap h = true →
   ∀ root, get_maas_cert_tuple (Fixtures.with_data_root root h) =
           get_maas_cert_tuple h) ∧
  (running_in_snap h = false →
   ∀ common, get_maas_cert_tuple (Fixtures.with_snap_common common h) =
             get_maas_cert_tuple h).
Proof.
  split; intros Hsnap x;
    unfold get_maas_cert_tuple, maas_cert_paths; simpl;
    rewrite Hsnap; reflexivity.
Qed.

Lemma get_maas_cert_tuple_reads_one_layout_witness :
  get_maas_cert_tuple
    (Fixtures.with_data_root "/tmp/maas-root"
       (Fixtures.string_host true
          ["/var/snap/maas/common/certificates/maas.key";
           "/var/snap/maas/common/certificates/maas.crt"])) =
  Some ("/var/snap/maas/common/certificates/maas.crt",
        "/var/snap/maas/common/certificates/maas.key").
Proof.
  rewrite (proj1 (get_maas_cert_tuple_reads_one_layout
                    (Fixtures.string_host true
                       ["/var/snap/maas/common/certificates/maas.key";
                        "/var/snap/maas/common/certificates/maas.crt"]))
             eq_refl "/tmp/maas-root").
  reflexivity.
Defined.

(** * Properties of the runserver command *)

(** X8. [Command.run] patches the WSGI server class exactly when the
    option [use_threading] is there with a true value (a missing option
    counts as false); it calls [start_up] once in every case, before the
    base command and after the patch; and the base command runs, with the
    very arguments and options of the call, exactly when [start_up] did
    not raise. The class is patched after the call exactly when it was
    before or the call patched it, and that is the class the base command
    finds. *)
Theorem runserver_run_order {R Exc} (start_up : option Exc)
    (base_run : bool → list Runserver.pyvalue →
                gmap string Runserver.pyvalue → R)
    (patched : bool) (args : list Runserver.pyvalue)
    (options : gmap string Runserver.pyvalue) :
  let ended := (Runserver.run start_up base_run patched args options).1.1 in
  let after_it :=
    (Runserver.run start_up base_run patched args options).1.2 in
  let tr := (Runserver.run start_up base_run patched args options).2 in
  (Runserver.PatchWSGIServer ∈ tr ↔
   ∃ v, options !! "use_threading" = Some v ∧ Runserver.truthy v = true) ∧
  (∃ before after,
     tr = (before ++ Runserver.StartUp :: after)%list ∧
     (Runserver.StartUp ∉ before) ∧ (Runserver.StartUp ∉ after) ∧
     (∀ e, e ∈ before → e = Runserver.PatchWSGIServer) ∧
     (∀ e, e ∈ after → e = Runserver.BaseRun args options)) ∧
  (Runserver.BaseRun args options ∈ tr ↔ start_up = None) ∧
  (∀ exc, start_up = Some exc → ended = Runserver.Raises exc) ∧
  (after_it = true ↔ patched = true ∨ Runserver.PatchWSGIServer ∈ tr) ∧
  (start_up = None →
   ended = Runserver.Returns (base_run after_it args options)).
Proof.
  intros ended after_it tr. subst ended after_it tr.
  unfold Runserver.run, Runserver.options_get.
  destruct (options !! "use_threading") as [v |] eqn:Hopt;
    [destruct (Runserver.truthy v) eqn:Hv |];
    destruct start_up as [exc |]; simpl.
  all: split;
    [ split;
      [ rewrite ?elem_of_cons, ?elem_of_nil; intros Hin;
        first [ exists v; split; [reflexivity | exact Hv]
              | decompose [or] Hin; try discriminate; contradiction ]
      | intros (v0 & Heq & Hv0);
        first [ discriminate Heq
              | inversion Heq; subst; congruence
              | apply list_elem_of_here ] ]
    | ].
  all: split;
    [ first
        [ exists [Runserver.PatchWSGIServer], []; split; [reflexivity |]
        | exists [Runserver.PatchWSGIServer],
            [Runserver.BaseRun args options]; split; [reflexivity |]
        | exists [], []; split; [reflexivity |]
        | exists [], [Runserver.BaseRun args options];
          split; [reflexivity |] ];
      repeat split; unfold not; intros;
      repeat match goal with
             | H : _ ∈ _ |- _ =>
                 rewrite ?elem_of_cons, ?elem_of_nil in H;
                 try (decompose [or] H)
             end;
      subst; try discriminate; try contradiction; reflexivity
    | ].
  all: split;
    [ split;
      [ rewrite ?elem_of_cons, ?elem_of_nil; intros Hin;
        first [ reflexivity
              | decompose [or] Hin; try discriminate; contradiction ]
      | intros Heq; first [ discriminate Heq
                          | rewrite ?elem_of_cons; auto ] ]
    | ].
  all: split;
    [ intros exc0 Heq; first [ discriminate Heq
                             | inversion Heq; reflexivity ]
    | ].
  all: split;
    [ split; intros Hp;
      [ first [ right; apply list_elem_of_here | left; exact Hp ]
      | first [ reflexivity
              | destruct Hp as [Hp | Hp]; [exact Hp |];
                rewrite ?elem_of_cons, ?elem_of_nil in Hp;
                decompose [or] Hp; try discriminate; contradiction ] ]
    | intros Heq; first [ discriminate Heq | reflexivity ] ].
Qed.

Lemma runserver_run_order_witness :
  (Runserver.run (Exc := string) None (λ threaded _ _, threaded) true []
     {[ "use_threading" := Runserver.PyBool false ]}).1.1 =
  Runserver.Returns true.
Proof.
  pose proof (runserver_run_order (Exc := string) None
                (λ threaded _ _, threaded) true []
                {[ "use_threading" := Runserver.PyBool false ]}) as H.
  cbv zeta in H. destruct H as (_ & _ & _ & _ & _ & H).
  rewrite (H eq_refl). reflexivity.
Defined.

(** * Properties of the registration with the admin site *)

Import Admin.

Lemma admin_module_body_register_each (get_models site : list Model) :
  admin_module_body get_models site =
  register_each (Consumer :: get_models) site.
Proof. reflexivity. Qed.

(** Registering a list of models goes through exactly when none of them
    is registered already and none comes twice. *)
Lemma register_each_ok_iff (models : list Model) :
  ∀ site site',
    register_each models site = (inl tt, site') ↔
    NoDup models ∧ (∀ m, m ∈ models → m ∉ site) ∧
    site' = (site ++ models)%list.
Proof.
  induction models as [| model rest IH]; intros site site'; simpl.
  - rewrite app_nil_r. split.
    + intros H. inversion H. split; [constructor |].
      split; [intros m Hm; inversion Hm | reflexivity].
    + intros (_ & _ & ->). reflexivity.
  - unfold register. destruct (decide (model ∈ site)) as [Hin | Hout].
    + split; [intros H; discriminate H |].
      intros (_ & Hfresh & _). exfalso.
      apply (Hfresh model); [apply list_elem_of_here | exact Hin].
    + rewrite IH. rewrite NoDup_cons, <- app_assoc. simpl.
      split.
      * intros (Hnd & Hfresh & ->). split; [split; [| exact Hnd] |].
        -- intros Hrest. apply (Hfresh model Hrest).
           apply elem_of_app. right. apply list_elem_of_here.
        -- split; [| reflexivity].
           intros m Hm Hsite. apply elem_of_cons in Hm as [-> | Hm];
             [contradiction |].
           apply (Hfresh m Hm). apply elem_of_app. left. exact Hsite.
      * intros ((Hhead & Hnd) & Hfresh & ->).
        split; [exact Hnd |]. split; [| reflexivity].
        intros m Hm Hsite. apply elem_of_app in Hsite as [Hsite | Hsite].
        -- apply (Hfresh m); [apply list_elem_of_further, Hm | exact Hsite].
        -- apply list_elem_of_singleton in Hsite as ->. contradiction.
Qed.

(** Registration only ever adds: what was registered stays, in place, and
    a refusal names a model of the list that is registered by then. *)
Lemma register_each_extends (models : list Model) :
  ∀ site r site',
    register_each models site = (r, site') →
    (∃ added, site' = (site ++ added)%list ∧ added `prefix_of` models) ∧
    (∀ m, r = inr (already_registered m) → m ∈ models ∧ m ∈ site').
Proof.
  induction models as [| model rest IH]; intros site r site'; simpl.
  - intros H. inversion H; subst. split.
    + exists []. rewrite app_nil_r. split; [reflexivity | apply prefix_nil].
    + intros m Hm. discriminate Hm.
  - unfold register. destruct (decide (model ∈ site)) as [Hin | Hout].
    + intros H. inversion H; subst. split.
      * exists []. rewrite app_nil_r. split; [reflexivity | apply prefix_nil].
      * intros m Hm. inversion Hm; subst.
        split; [apply list_elem_of_here | exact Hin].
    + intros H. destruct (IH _ _ _ H) as ((added & -> & Hpre) & Hbad).
      split.
      * exists (model :: added). rewrite <- app_assoc. simpl.
        split; [reflexivity | apply prefix_cons, Hpre].
      * intros m Hm. destruct (Hbad m Hm) as [Hrest Hsite].
        split; [apply list_elem_of_further, Hrest | exact Hsite].
Qed.

(** X9. The first import of [maasserver.admin] in a process goes through
    exactly when [Consumer] and the models of the application are all
    different and none of them is registered with the site yet; the site
    then holds, after what it held, [Consumer] and the models in their
    order, and the module counts as loaded. An import of the module once
    it is loaded always goes through and changes nothing. *)
Theorem import_admin_ok_iff (get_models : list Model) (p p' : Process) :
  import_admin get_models p = (inl tt, p') ↔
  (admin_imported p = true ∧ p' = p) ∨
  (admin_imported p = false ∧
   NoDup (Consumer :: get_models) ∧
   (∀ m, m ∈ Consumer :: get_models → m ∉ admin_site p) ∧
   p' = {| admin_imported := true;
           admin_site := (admin_site p ++ Consumer :: get_models)%list |}).
Proof.
  unfold import_admin. destruct p as [[|] site]; simpl.
  - split.
    + intros H. inversion H. left. split; reflexivity.
    + intros [[_ ->] | [H _]]; [reflexivity | discriminate H].
  - rewrite admin_module_body_register_each.
    destruct (register_each (Consumer :: get_models) site)
      as [[[] | e] site''] eqn:Hrun.
    + apply register_each_ok_iff in Hrun as (Hnd & Hfresh & ->).
      split.
      * intros H. inversion H. right. auto.
      * intros [[H _] | (_ & _ & _ & ->)]; [discriminate H | reflexivity].
    + split; [intros H; discriminate H |].
      intros [[H _] | (_ & Hnd & Hfresh & _)]; [discriminate H |].
      assert (Hok : register_each (Consumer :: get_models) site =
                    (inl tt, (site ++ Consumer :: get_models)%list))
        by (apply register_each_ok_iff; auto).
      rewrite Hok in Hrun. discriminate Hrun.
Qed.

Lemma import_admin_ok_iff_witness :
  import_admin Fixtures.maas_models
    {| admin_imported := false; admin_site := [AppModel "User"] |} =
  (inl tt,
   {| admin_imported := true;
      admin_site := AppModel "User" :: Consumer :: Fixtures.maas_models |}) ∧
  import_admin Fixtures.maas_models
    {| admin_imported := true;
       admin_site := AppModel "User" :: Consumer :: Fixtures.maas_models |} =
  (inl tt,
   {| admin_imported := true;
      admin_site := AppModel "User" :: Consumer :: Fixtures.maas_models |}).
Proof.
  split.
  - apply (proj2 (import_admin_ok_iff Fixtures.maas_models
                    {| admin_imported := false;
                       admin_site := [AppModel "User"] |}
                    {| admin_imported := true;
                       admin_site := AppModel "User" :: Consumer
                                       :: Fixtures.maas_models |})).
    right. split; [reflexivity |].
    split; [apply (bool_decide_unpack _); vm_compute; exact I |].
    split; [| reflexivity].
    intros m Hm Hsite. apply list_elem_of_singleton in Hsite as ->.
    revert Hm. apply (bool_decide_unpack _). vm_compute. exact I.
  - apply (proj2 (import_admin_ok_iff Fixtures.maas_models
                    {| admin_imported := true;
                       admin_site := AppModel "User" :: Consumer
                                       :: Fixtures.maas_models |} _)).
    left. split; reflexivity.
Defined.

(** X10. Importing [maasserver.admin] never takes a registration away:
    the site it leaves is the site it found followed by a front part of
    [Consumer] and the models. When it is refused, the model named in the
    refusal is one of these and is registered, and the models registered
    before the refusal stay registered. *)
Theorem import_admin_only_adds (get_models : list Model) (p : Process)
    (r : unit + AlreadyRegistered) (p' : Process) :
  import_admin get_models p = (r, p') →
  (∃ added, admin_site p' = (admin_site p ++ added)%list ∧
            added `prefix_of` Consumer :: get_models) ∧
  (∀ m, r = inr (already_registered m) →
     m ∈ Consumer :: get_models ∧ m ∈ admin_site p').
Proof.
  unfold import_admin. destruct p as [[|] site]; simpl.
  - intros H. inversion H; subst. simpl. split.
    + exists []. rewrite app_nil_r. split; [reflexivity | apply prefix_nil].
    + intros m Hm. discriminate Hm.
  - rewrite admin_module_body_register_each.
    destruct (register_each (Consumer :: get_models) site)
      as [r0 site''] eqn:Hrun.
    apply register_each_extends in Hrun as [Hadded Hbad].
    destruct r0 as [[] | e]; intros H; inversion H; subst; simpl.
    + split; [exact Hadded |]. intros m Hm. discriminate Hm.
    + split; [exact Hadded | exact Hbad].
Qed.

Lemma import_admin_only_adds_witness :
  ∃ added,
    [AppModel "User"; Consumer; AppModel "Node"; AppModel "Tag"] =
      ([AppModel "User"] ++ added)%list ∧
    added `prefix_of`
      [Consumer; AppModel "Node"; AppModel "Tag"; AppModel "Node"].
Proof.
  apply (import_admin_only_adds
           [AppModel "Node"; AppModel "Tag"; AppModel "Node"]
           {| admin_imported := false; admin_site := [AppModel "User"] |}
           (inr (already_registered (AppModel "Node")))
           {| admin_imported := false;
              admin_site := [AppModel "User"; Consumer; AppModel "Node";
                             AppModel "Tag"] |}).
  reflexivity.
Defined.

(** * Properties of the helpers of the boot-resource tests *)

Import BootResourceTests.

(** X11. With a [factory.make_bytes] that gives as many bytes as it is
    asked for, [make_LargeFile] makes an incomplete file, one whose size is
    not its total size, only when it is given both a content and a size
    that is not the length of that content. Without a content the file has
    the size asked for, 512 bytes when none is asked for. *)
Theorem make_LargeFile_incomplete_only_on_request
    (make_bytes : nat → list Byte.byte)
    (sha256_hexdigest : list Byte.byte → string)
    (content : option (list Byte.byte)) (size : option nat) :
  (∀ n, length (make_bytes n) = n) →
  let file := make_LargeFile make_bytes sha256_hexdigest content size in
  (lf_size file ≠ lf_total_size file →
   ∃ c n, content = Some c ∧ size = Some n ∧ length c ≠ n) ∧
  (content = None → lf_size file = default 512%nat size) ∧
  lf_size file = length (lf_content file) ∧
  lf_sha256 file = sha256_hexdigest (lf_content file).
Proof.
  intros Hlen file. subst file. unfold make_LargeFile.
  destruct content as [c |], size as [n |]; simpl; rewrite ?Hlen;
    repeat split; try (intros H; congruence); try tauto.
  intros H. exists c, n. auto.
Qed.

Lemma make_LargeFile_incomplete_only_on_request_witness :
  lf_size (make_LargeFile (λ n, replicate n Byte.x00) (λ _, "digest")
             None (Some 7%nat)) = 7%nat.
Proof.
  destruct (make_LargeFile_incomplete_only_on_request
              (λ n, replicate n Byte.x00) (λ _, "digest") None (Some 7%nat)
              (λ n, length_replicate n Byte.x00)) as (_ & Hsize & _).
  exact (Hsize eq_refl).
Defined.

(** * Further properties of the power-type catalog *)

Lemma valid_new_power_type (other_kinds : list string)
    (name description : string) (fields : json) :
  valid_power_type other_kinds (new_power_type name description fields) =
  valid_field_set other_kinds fields.
Proof. reflexivity. Qed.

Lemma valid_catalog_app (other_kinds : list string)
    (docs : list json) (doc : json) :
  valid_catalog other_kinds (JArr (docs ++ [doc])) =
  valid_catalog other_kinds (JArr docs) && valid_power_type other_kinds doc.
Proof. simpl. rewrite forallb_app. simpl. rewrite andb_true_r. reflexivity. Qed.

Lemma has_name_name_of (name : string) (doc : json) :
  has_name name doc = true → name_of doc = name.
Proof.
  unfold has_name, name_of.
  destruct (member "name" doc) as [[| | | n | |] |]; try discriminate.
  intros H. apply String.eqb_eq in H. simpl. congruence.
Qed.

Lemma existsb_has_name_elem (name : string) (docs : list json) :
  existsb (has_name name) docs = true → name ∈ name_of <$> docs.
Proof.
  intros H. apply existsb_exists in H as (doc & Hin & Hname).
  apply list_elem_of_fmap. exists doc.
  split; [symmetry; apply has_name_name_of, Hname |].
  apply list_elem_of_In, Hin.
Qed.

(** X12. For a name that is not in the registry yet,
    [add_power_type_parameters] returns exactly when the fields given
    satisfy the field schema and the registry it finds satisfies the
    catalog schema; the new entry, with the name, the description and the
    fields of the call, is then put at the end, and the entries that were
    there stay as they were and where they were. *)
Theorem add_new_power_type_appends (other_kinds : list string)
    (name description : string)
    (fields : json) (parameters_set : list json) :
  existsb (has_name name) parameters_set = false →
  let r := add_power_type_parameters other_kinds name description fields
             parameters_set in
  (r.1 = inl tt ↔
   valid_field_set other_kinds fields = true ∧
   valid_catalog other_kinds (JArr parameters_set) = true) ∧
  (r.1 = inl tt →
   r.2 = (parameters_set ++
            [JObj [("name", JStr name); ("description", JStr description);
                   ("fields", fields)]])%list).
Proof.
  intros Hnew r. subst r. unfold add_power_type_parameters.
  rewrite Hnew, valid_catalog_app, valid_new_power_type.
  destruct (valid_field_set other_kinds fields); cbn [negb].
  - rewrite andb_true_r.
    destruct (valid_catalog other_kinds (JArr parameters_set)); simpl.
    + split; [split; auto | reflexivity].
    + split; [split; [intros H | intros [_ H]]; discriminate H |].
      intros H. discriminate H.
  - split; [split; [intros H | intros [H _]]; discriminate H |].
    intros H. discriminate H.
Qed.

Lemma add_new_power_type_appends_witness :
  (add_power_type_parameters [] "ipmi" "IPMI"
     (JArr [Scenario.make_json_field "power_address" "Address"])
     Scenario.something_parameters).2 =
  (Scenario.something_parameters ++
     [JObj [("name", JStr "ipmi"); ("description", JStr "IPMI");
            ("fields",
             JArr [Scenario.make_json_field "power_address" "Address"])]])%list.
Proof.
  apply (add_new_power_type_appends [] "ipmi" "IPMI"
           (JArr [Scenario.make_json_field "power_address" "Address"])
           Scenario.something_parameters eq_refl).
  reflexivity.
Defined.

(** X13. A power type that [add_power_type_parameters] has accepted into a
    registry that satisfied the catalog schema is found by
    [get_power_type_parameters_from_json]: the catalog built from the
    registry holds the name, and its keys are the empty name, the names
    that were in the registry, and the name of the call. *)
Theorem added_power_type_is_in_catalog (other_kinds : list string)
    (name description : string)
    (fields : json) (parameters_set : list json) :
  valid_catalog other_kinds (JArr parameters_set) = true →
  let r := add_power_type_parameters other_kinds name description fields
             parameters_set in
  r.1 = inl tt →
  ∃ catalog,
    get_power_type_parameters_from_json other_kinds (JArr r.2) = inl catalog ∧
    name ∈ dom catalog ∧
    dom catalog =
      {[ "" ]} ∪ list_to_set (name_of <$> parameters_set) ∪ {[ name ]}.
Proof.
  intros Hvalid r Hok.
  destruct (add_power_type_parameters_cases other_kinds name description fields
              parameters_set) as [(Hin & Hr) | [(Hin & Hall & Hr) | (_ & Hr)]];
    fold r in Hr; rewrite Hr in Hok |- *; simpl in Hok |- *;
    [| | discriminate Hok].
  - simpl in Hvalid.
    destruct (add_entries_keys other_kinds parameters_set Hvalid
                {[ "" := empty_entry ]})
      as (catalog & Hrun & Hdom & _).
    unfold get_power_type_parameters_from_json. simpl. rewrite Hvalid.
    exists catalog. split; [exact Hrun |].
    apply existsb_has_name_elem in Hin.
    rewrite Hdom, dom_singleton_L. set_solver.
  - simpl in Hall.
    destruct (add_entries_keys other_kinds _ Hall {[ "" := empty_entry ]})
      as (catalog & Hrun & Hdom & _).
    unfold get_power_type_parameters_from_json. simpl. rewrite Hall.
    exists catalog. split; [exact Hrun |].
    rewrite Hdom, dom_singleton_L, fmap_app, list_to_set_app_L. simpl.
    unfold name_of at 2 4. simpl. set_solver.
Qed.

Lemma added_power_type_is_in_catalog_witness :
  ∃ catalog,
    get_power_type_parameters_from_json []
      (JArr (add_power_type_parameters [] "ipmi" "IPMI"
               (JArr [Scenario.make_json_field "power_address" "Address"])
               Scenario.something_parameters).2) = inl catalog ∧
    "ipmi" ∈ dom catalog.
Proof.
  destruct (added_power_type_is_in_catalog [] "ipmi" "IPMI"
              (JArr [Scenario.make_json_field "power_address" "Address"])
              Scenario.something_parameters eq_refl eq_refl)
    as (catalog & Hrun & Hin & _).
  exists catalog. split; [exact Hrun | exact Hin].
Defined.

(** X14. For a field document that satisfies the field schema,
    [make_form_field] answers with a descriptor that keeps the name, the
    label and the required flag of the document as they are, and its
    default when the document has one. *)
Theorem make_form_field_keeps_properties (other_kinds : list string)
    (json_field : json) :
  valid_field other_kinds json_field = true →
  ∃ fd,
    make_form_field other_kinds json_field = inl fd ∧
    member "name" json_field = Some (JStr (fd_name fd)) ∧
    member "label" json_field = Some (JStr (fd_label fd)) ∧
    member "required" json_field = Some (JBool (fd_required fd)) ∧
    (∀ v, member "default" json_field = Some v → v = JStr (fd_default fd)).
Proof.
  intros Hvalid. unfold make_form_field. rewrite Hvalid.
  eexists. split; [reflexivity |]. simpl.
  unfold valid_field in Hvalid.
  repeat (apply andb_true_iff in Hvalid as [Hvalid ?]).
  unfold required_key, optional_key in *.
  destruct (member "name" json_field) as [[| | | n | |] |];
    try discriminate.
  destruct (member "label" json_field) as [[| | | l | |] |];
    try discriminate.
  destruct (member "required" json_field) as [[| b | | | |] |];
    try discriminate.
  repeat split.
  intros v Hv.
  destruct (member "default" json_field) as [[| | | d | |] |];
    try discriminate.
  inversion Hv. reflexivity.
Qed.

Lemma make_form_field_keeps_properties_witness :
  ∃ fd,
    make_form_field []
      (JObj [("name", JStr "some_field"); ("label", JStr "Some Field");
             ("field_type", JStr "string"); ("required", JBool false)]) =
      inl fd ∧
    fd_label fd = "Some Field" ∧ fd_required fd = false.
Proof.
  destruct (make_form_field_keeps_properties []
              (JObj [("name", JStr "some_field");
                     ("label", JStr "Some Field");
                     ("field_type", JStr "string");
                     ("required", JBool false)]) eq_refl)
    as (fd & Hmake & _ & Hlabel & Hrequired & _).
  exists fd. split; [exact Hmake |].
  simpl in Hlabel, Hrequired.
  inversion Hlabel. inversion Hrequired. split; reflexivity.
Defined.

Lemma make_form_fields_names (other_kinds : list string)
    (json_fields : list json) :
  ∀ fds, make_form_fields other_kinds json_fields = inl fds →
         fd_name <$> fds = name_of <$> json_fields.
Proof.
  induction json_fields as [| f rest IH]; simpl; intros fds Hmake.
  - inversion Hmake. reflexivity.
  - unfold make_form_field in Hmake.
    destruct (valid_field other_kinds f); [| discriminate Hmake].
    destruct (make_form_fields other_kinds rest) as [fds' | e];
      [| discriminate Hmake].
    inversion Hmake; subst. rewrite !fmap_cons. f_equal.
    apply (IH fds' eq_refl).
Qed.

(** With names that are all different, every document is found under its
    name once the loop is through. *)
Lemma add_entries_lookup (other_kinds : list string)
    (power_types : list json) :
  forallb (valid_power_type other_kinds) power_types = true →
  NoDup (name_of <$> power_types) →
  ∀ acc : gmap string PowerTypeEntry,
  ∃ catalog,
    add_entries other_kinds power_types acc = inl catalog ∧
    ∀ d, d ∈ power_types →
         ∃ entry, make_entry other_kinds d = inl entry ∧
                  catalog !! name_of d = Some entry.
Proof.
  induction power_types as [| d rest IH]; simpl; intros Hall Hnd acc.
  - exists acc. split; [reflexivity |]. intros d Hd. inversion Hd.
  - apply andb_true_iff in Hall as [Hd Hrest].
    apply NoDup_cons in Hnd as [Hfresh Hnd].
    destruct (make_entry_valid other_kinds d Hd) as (entry & Hentry & Hname).
    rewrite Hentry, Hname.
    destruct (IH Hrest Hnd (<[name_of d := entry]> acc))
      as (catalog & Hrun & Hfind).
    destruct (add_entries_keys other_kinds rest Hrest
                (<[name_of d := entry]> acc))
      as (catalog' & Hrun' & _ & Hkeep).
    rewrite Hrun in Hrun'. inversion Hrun'; subst catalog'.
    exists catalog. split; [exact Hrun |].
    intros d' Hd'. apply elem_of_cons in Hd' as [-> | Hd'].
    + exists entry. split; [exact Hentry |].
      rewrite (Hkeep _ Hfresh). apply lookup_insert_eq.
    + apply Hfind, Hd'.
Qed.

(** X15. From an input that satisfies the catalog schema and names every
    power type once, [get_power_type_parameters_from_json] builds a catalog
    in which every document of the input is found under its name, with its
    description and with one field descriptor for each of its field
    documents, of the same names in the same order. *)
Theorem catalog_holds_every_power_type (other_kinds : list string)
    (docs : list json) :
  valid_catalog other_kinds (JArr docs) = true →
  NoDup (name_of <$> docs) →
  ∃ catalog,
    get_power_type_parameters_from_json other_kinds (JArr docs) = inl catalog ∧
    ∀ d, d ∈ docs →
         ∃ entry,
           catalog !! name_of d = Some entry ∧
           pt_name entry = name_of d ∧
           member "description" d = Some (JStr (pt_description entry)) ∧
           fd_name <$> pt_fields entry = name_of <$> fields_of d.
Proof.
  intros Hvalid Hnd.
  unfold get_power_type_parameters_from_json. rewrite Hvalid.
  simpl in Hvalid.
  destruct (add_entries_lookup other_kinds docs Hvalid Hnd
              {[ "" := empty_entry ]})
    as (catalog & Hrun & Hfind).
  exists catalog. split; [exact Hrun |].
  intros d Hd. destruct (Hfind d Hd) as (entry & Hentry & Hlookup).
  exists entry. split; [exact Hlookup |].
  rewrite forallb_forall in Hvalid.
  apply list_elem_of_In in Hd. specialize (Hvalid d Hd).
  unfold make_entry in Hentry.
  destruct (make_form_fields other_kinds (fields_of d)) as [fds | e]
    eqn:Hfields; [| discriminate Hentry].
  inversion Hentry; subst entry. simpl.
  split; [reflexivity |].
  split; [| apply (make_form_fields_names other_kinds), Hfields].
  unfold valid_power_type in Hvalid.
  repeat (apply andb_true_iff in Hvalid as [Hvalid ?]).
  unfold required_key in *.
  destruct (member "description" d) as [[| | | s | |] |];
    try discriminate.
  reflexivity.
Qed.

Lemma catalog_holds_every_power_type_witness :
  ∃ catalog,
    get_power_type_parameters_from_json []
      (JArr Scenario.something_parameters) = inl catalog ∧
    ∃ entry, catalog !! "something" = Some entry ∧
             fd_name <$> pt_fields entry = ["some_field"].
Proof.
  destruct (catalog_holds_every_power_type [] Scenario.something_parameters
              eq_refl) as (catalog & Hrun & Hfind).
  { apply (bool_decide_unpack _). vm_compute. exact I. }
  exists catalog. split; [exact Hrun |].
  destruct (Hfind _ (list_elem_of_here _ _)) as (entry & Hl & _ & _ & Hn).
  exists entry. split; [exact Hl | exact Hn].
Defined.

(** * The field schema, run on documents *)

(** A field without a label fails the whole call. *)
Example missing_label_fails :
  get_power_type_parameters_from_json [] (JArr Scenario.broken_parameters) =
  inr SchemaValidationError.
Proof. reflexivity. Qed.

(** A kind that is not recognised fails the call; once it is among the
    recognised kinds the same input gives a catalog. *)
Example unrecognised_kind_fails :
  let docs :=
    JArr [JObj [("name", JStr "amt"); ("description", JStr "Intel AMT");
                ("fields",
                 JArr [JObj [("name", JStr "power_address");
                             ("label", JStr "Address");
                             ("field_type", JStr "ip_address");
                             ("required", JBool true)]])]] in
  get_power_type_parameters_from_json [] docs = inr SchemaValidationError ∧
  ∃ catalog,
    get_power_type_parameters_from_json ["ip_address"] docs = inl catalog ∧
    dom catalog = {[ ""; "amt" ]}.
Proof.
  split; [reflexivity |].
  eexists. split; [reflexivity |].
  rewrite dom_insert_L, dom_singleton_L. set_solver.
Qed.

(** The choice of [test_creates_choice_field_for_choices], whose default
    is one of its choices, satisfies the field schema. *)
Example choice_with_listed_default_is_valid :
  valid_field []
    (JObj [("name", JStr "some_field"); ("label", JStr "Some Field");
           ("field_type", JStr "choice");
           ("choices",
            JArr [JArr [JStr "choice-one"; JStr "Choice One"];
                  JArr [JStr "choice-two"; JStr "Choice Two"]]);
           ("default", JStr "choice-one"); ("required", JBool false)]) =
  true.
Proof. reflexivity. Qed.
